(** * Metric value backends of [prometheus_client/values.py]

    The file embeds the two value backends of the client and the selector
    that chooses between them:

    - [MutexValue]: a float and an optional exemplar, every method body run
      under the instance's own lock;
    - [MultiProcessValue]: the factory whose closure ([files], [values],
      [pid], one lock) is shared by every [MmapedValue] it produces;
    - [get_value_class]: the choice made from [os.environ].

    Python floats are IEEE doubles, taken here as Rocq's primitive [float];
    Python ints are [Z]; [str] is [string]; [None] is the [None] of [option]. *)

From Stdlib Require Import Floats ZArith Ascii String.
From stdpp Require Import gmap strings list fin_maps pretty.

Local Open Scope Z_scope.

(** ** Python library functions used by the module *)

Module Py.

(** [s.endswith('/')]. *)
Fixpoint endswith_sep (s : string) : bool :=
  match s with
  | EmptyString => false
  | String c EmptyString => bool_decide (c = "/"%char)
  | String _ rest => endswith_sep rest
  end.

(** [b.startswith('/')]. *)
Definition startswith_sep (b : string) : bool :=
  match b with
  | String c _ => bool_decide (c = "/"%char)
  | EmptyString => false
  end.

(** [os.path.join(a, b)] of [posixpath], for two components. *)
Definition os_path_join (a b : string) : string :=
  if startswith_sep b then b
  else if bool_decide (a = "") || endswith_sep a then a +:+ b
  else a +:+ "/" +:+ b.

(** [str(x)] of a value that is a [str] or [None], as ['{}'.format] prints it. *)
Definition format_str (x : option string) : string :=
  match x with
  | Some s => s
  | None => "None"
  end.

(** ['{}_{}.db'.format(file_prefix, pid)]. *)
Definition format_db (file_prefix : option string) (pid : Z) : string :=
  format_str file_prefix +:+ "_" +:+ pretty pid +:+ ".db".

End Py.

(** ** [class MutexValue]: a float protected by a mutex *)

Module MutexValue.
Section WithExemplar.
Variable Exemplar : Type.

(** The instance attributes other than [_lock]. *)
Record t : Type := Build { _value : float; _exemplar : option Exemplar }.

(** [__init__]: the identity arguments are accepted and ignored. *)
Definition init (typ : option string) (metric_name name : string)
    (labelnames labelvalues : list string) : t :=
  {| _value := 0%float; _exemplar := None |}.

(** The bodies of the methods, each run with [self._lock] held. *)
Definition inc (amount : float) (self : t) : t :=
  {| _value := (_value self + amount)%float; _exemplar := _exemplar self |}.

Definition set (value : float) (self : t) : t :=
  {| _value := value; _exemplar := _exemplar self |}.

Definition set_exemplar (exemplar : Exemplar) (self : t) : t :=
  {| _value := _value self; _exemplar := Some exemplar |}.

Definition get (self : t) : float := _value self.

Definition get_exemplar (self : t) : option Exemplar := _exemplar self.

(** *** Threads calling the methods of one instance

    A call is made of the steps a thread switch can separate: acquiring the
    lock, the read and the write of [self._value += amount], and the release
    at the end of the [with] block. *)

Inductive call : Type :=
| Inc (amount : float)
| Set_ (value : float)
| SetExemplar (exemplar : Exemplar)
| Get
| GetExemplar.

Inductive retval : Type :=
| RNone
| RFloat (x : float)
| RExemplar (e : option Exemplar).

(** Where a thread stands in its current call. *)
Inductive pc : Type :=
| Idle                          (* between two calls *)
| Entered (c : call)            (* holds the lock, body not yet run *)
| Loaded (amount tmp : float)   (* in [+=]: [self._value] read into [tmp] *)
| Leaving (r : retval).         (* body run, lock still held *)

Record thread : Type := Thread {
  at_pc : pc;
  todo : list call;
  returned : list retval
}.

Record shared : Type := Shared {
  obj : t;
  lock : option nat;            (* the thread that holds [self._lock] *)
  threads : list thread
}.

(** What a call does to the instance when it runs alone. *)
Definition apply (c : call) (self : t) : t :=
  match c with
  | Inc amount => inc amount self
  | Set_ value => set value self
  | SetExemplar e => set_exemplar e self
  | Get | GetExemplar => self
  end.

Definition exec (calls : list call) (self : t) : t :=
  fold_left (fun o c => apply c o) calls self.

Definition goto (i : nat) (th : thread) (s : shared) (o : t) (l : option nat) : shared :=
  {| obj := o; lock := l; threads := <[i := th]> (threads s) |}.

(** One step of thread [i]; a thread that cannot move (finished, or waiting
    for the lock) leaves the state as it is. *)
Definition step (i : nat) (s : shared) : shared :=
  match threads s !! i with
  | None => s
  | Some th =>
    let at_ p := {| at_pc := p; todo := todo th; returned := returned th |} in
    match at_pc th with
    | Idle =>
      match todo th, lock s with
      | c :: rest, None =>
        goto i {| at_pc := Entered c; todo := rest; returned := returned th |}
             s (obj s) (Some i)
      | _, _ => s
      end
    | Entered (Inc amount) =>
      goto i (at_ (Loaded amount (_value (obj s)))) s (obj s) (lock s)
    | Entered (Set_ value) =>
      goto i (at_ (Leaving RNone)) s (set value (obj s)) (lock s)
    | Entered (SetExemplar e) =>
      goto i (at_ (Leaving RNone)) s (set_exemplar e (obj s)) (lock s)
    | Entered Get =>
      goto i (at_ (Leaving (RFloat (get (obj s))))) s (obj s) (lock s)
    | Entered GetExemplar =>
      goto i (at_ (Leaving (RExemplar (get_exemplar (obj s))))) s (obj s) (lock s)
    | Loaded amount tmp =>
      goto i (at_ (Leaving RNone)) s
           {| _value := (tmp + amount)%float; _exemplar := _exemplar (obj s) |}
           (lock s)
    | Leaving r =>
      goto i {| at_pc := Idle; todo := todo th; returned := returned th ++ [r] |}
           s (obj s) None
    end
  end.

(** A schedule names the thread that moves at each step. *)
Definition run (sched : list nat) (s : shared) : shared :=
  fold_left (fun s i => step i s) sched s.

Definition spawn (self : t) (progs : list (list call)) : shared :=
  {| obj := self; lock := None;
     threads := (fun p => {| at_pc := Idle; todo := p; returned := [] |}) <$> progs |}.

Definition finished (th : thread) : bool :=
  match at_pc th, todo th with
  | Idle, [] => true
  | _, _ => false
  end.

Definition quiescent (s : shared) : bool := forallb finished (threads s).

(** The calls a thread has not yet performed on the instance. *)
Definition pending (th : thread) : list call :=
  match at_pc th with
  | Entered c => c :: todo th
  | Loaded amount _ => Inc amount :: todo th
  | Idle | Leaving _ => todo th
  end.

End WithExemplar.

Arguments Inc {Exemplar} amount.
Arguments Set_ {Exemplar} value.
Arguments Get {Exemplar}.
Arguments GetExemplar {Exemplar}.
Arguments RNone {Exemplar}.
Arguments RFloat {Exemplar} x.
Arguments Idle {Exemplar}.

End MutexValue.

(** An order in which the calls of several threads can take effect: each
    thread's calls keep their order. *)
Inductive merges {A : Type} : list (list A) -> list A -> Prop :=
| merges_done progs :
    Forall (fun p => p = []) progs -> merges progs []
| merges_next progs i c rest order :
    progs !! i = Some (c :: rest) ->
    merges (<[i := rest]> progs) order ->
    merges progs (c :: order).

(** What holds of every state the threads can reach from
    [spawn self progs]: the instance is what some order of the calls
    performed so far made of it, only the holder of the lock is inside a
    call, and a value read for [+=] is still the instance's value. *)
Definition linearized {Exemplar : Type} (self : MutexValue.t Exemplar)
    (progs : list (list (MutexValue.call Exemplar)))
    (s : MutexValue.shared Exemplar) : Prop :=
  (exists done,
      MutexValue.obj _ s = MutexValue.exec _ done self /\
      forall rest,
        merges (MutexValue.pending _ <$> MutexValue.threads _ s) rest ->
        merges progs (done ++ rest)) /\
  (forall i th, MutexValue.threads _ s !! i = Some th ->
                MutexValue.at_pc _ th <> MutexValue.Idle ->
                MutexValue.lock _ s = Some i) /\
  (forall i th amount tmp,
      MutexValue.threads _ s !! i = Some th ->
      MutexValue.at_pc _ th = MutexValue.Loaded _ amount tmp ->
      tmp = MutexValue._value _ (MutexValue.obj _ s)).

(** ** The backing store *)

Module MmapedDict.

(** Modelled from the spec: [mmap_dict.py] ([MmapedDict], [mmap_key]) is not
    among the sources. Its contract is [open(path) -> store],
    [store.read(key) -> float] (0.0 for a key never written),
    [store.write(key, float)] and [store.close()], over a file that persists
    under its path; failing I/O is raised to the caller. A store object is
    the path it was opened on and whether it has been closed; the contents
    live in the process's [disk], a map from (path, key) to the float. *)
Record t : Type := Build { filename : string; closed : bool }.

Definition close (d : t) : t := {| filename := filename d; closed := true |}.

End MmapedDict.

(** ** [def MultiProcessValue]: the factory and its [MmapedValue] class *)

Module MultiProcessValue.

(** The arguments of [MmapedValue.__init__], kept in [self._params]. *)
Record params : Type := Params {
  typ : option string;
  metric_name : string;
  name : string;
  labelnames : list string;
  labelvalues : list string;
  multiprocess_mode : string
}.

(** The attributes of an instance; [_file] is a reference to a store object,
    the index of that object in the process's [heap]. *)
Record MmapedValue : Type := Instance_ {
  _params : params;
  _file : nat;
  _key : string;
  _value : float
}.

(** Requests to the file system that can fail. *)
Inductive io : Type :=
| Open (path : string)
| Read (path key : string)
| Write (path key : string).

Inductive exn : Type :=
| TypeError                 (* [os.path.join(None, ...)] *)
| OSError (op : io)         (* the store could not open, read or write *)
| ValueError                (* a store used after [close()] *)
| BadReference.             (* no such object: not reachable from Python *)

Inductive result (A : Type) : Type :=
| Ok (a : A)
| Raise (e : exn).
Arguments Ok {A} a.
Arguments Raise {A} e.

(** The process, and the closure of one call of [MultiProcessValue]. An
    instance is referred to by its position in [values]: every instance is
    appended there once, when its construction completes, and never removed. *)
Record state : Type := State {
  (* the process *)
  environ : gmap string string;            (* [os.environ] *)
  disk : gmap (string * string) float;     (* the files' contents *)
  heap : list MmapedDict.t;                (* the store objects created *)
  failing : io -> bool;                    (* the requests that fail *)
  warned : list string;                    (* the [warnings.warn] calls *)
  (* the closure *)
  files : gmap (option string) nat;
  values : list MmapedValue;
  pid : Z
}.

Definition set_environ (e : gmap string string) (s : state) : state :=
  {| environ := e; disk := disk s; heap := heap s; failing := failing s;
     warned := warned s; files := files s; values := values s; pid := pid s |}.

Definition set_disk (d : gmap (string * string) float) (s : state) : state :=
  {| environ := environ s; disk := d; heap := heap s; failing := failing s;
     warned := warned s; files := files s; values := values s; pid := pid s |}.

Definition set_heap (h : list MmapedDict.t) (s : state) : state :=
  {| environ := environ s; disk := disk s; heap := h; failing := failing s;
     warned := warned s; files := files s; values := values s; pid := pid s |}.

Definition set_warned (w : list string) (s : state) : state :=
  {| environ := environ s; disk := disk s; heap := heap s; failing := failing s;
     warned := w; files := files s; values := values s; pid := pid s |}.

Definition set_files (f : gmap (option string) nat) (s : state) : state :=
  {| environ := environ s; disk := disk s; heap := heap s; failing := failing s;
     warned := warned s; files := f; values := values s; pid := pid s |}.

Definition set_values (v : list MmapedValue) (s : state) : state :=
  {| environ := environ s; disk := disk s; heap := heap s; failing := failing s;
     warned := warned s; files := files s; values := v; pid := pid s |}.

Definition set_pid (p : Z) (s : state) : state :=
  {| environ := environ s; disk := disk s; heap := heap s; failing := failing s;
     warned := warned s; files := files s; values := values s; pid := p |}.

(** Statements run on the state and return or raise; what a statement did
    before it raised stays done. *)
Definition M (A : Type) : Type := state -> state * result A.

Definition ret {A : Type} (a : A) : M A := fun s => (s, Ok a).

Definition raise {A : Type} (e : exn) : M A := fun s => (s, Raise e).

Definition bind {A B : Type} (m : M A) (k : A -> M B) : M B :=
  fun s =>
    match m s with
    | (s', Ok a) => k a s'
    | (s', Raise e) => (s', Raise e)
    end.

Definition gets {A : Type} (f : state -> A) : M A := fun s => (s, Ok (f s)).

Definition modify (f : state -> state) : M unit := fun s => (f s, Ok tt).

Notation "x <- m ;; k" := (bind m (fun x => k))
  (at level 100, m at next level, right associativity, only parsing).
Notation "m ;; k" := (bind m (fun _ => k))
  (at level 100, right associativity, only parsing).

(** [for x in l: body(x)]. *)
Fixpoint for_each {A : Type} (l : list A) (body : A -> M unit) : M unit :=
  match l with
  | [] => ret tt
  | x :: rest => body x ;; for_each rest body
  end.

Definition LEGACY : string := "prometheus_multiproc_dir".
Definition CURRENT : string := "PROMETHEUS_MULTIPROC_DIR".
Definition DEPRECATION : string :=
  "prometheus_multiproc_dir variable has been deprecated in favor of the upper case naming PROMETHEUS_MULTIPROC_DIR".

(** *** The store's operations on the state (see [MmapedDict]) *)

(** [MmapedDict(filename)]: a new store object. *)
Definition open (path : string) : M nat :=
  fun s =>
    if failing s (Open path) then (s, Raise (OSError (Open path)))
    else (set_heap (heap s ++ [MmapedDict.Build path false]) s,
          Ok (length (heap s))).

(** [f.read_value(key)]. *)
Definition read_value (f : nat) (key : string) : M float :=
  fun s =>
    match heap s !! f with
    | None => (s, Raise BadReference)
    | Some d =>
      if MmapedDict.closed d then (s, Raise ValueError)
      else if failing s (Read (MmapedDict.filename d) key)
      then (s, Raise (OSError (Read (MmapedDict.filename d) key)))
      else (s, Ok (default 0%float (disk s !! (MmapedDict.filename d, key))))
    end.

(** [f.write_value(key, value)]. *)
Definition write_value (f : nat) (key : string) (value : float) : M unit :=
  fun s =>
    match heap s !! f with
    | None => (s, Raise BadReference)
    | Some d =>
      if MmapedDict.closed d then (s, Raise ValueError)
      else if failing s (Write (MmapedDict.filename d) key)
      then (s, Raise (OSError (Write (MmapedDict.filename d) key)))
      else (set_disk (<[(MmapedDict.filename d, key) := value]> (disk s)) s, Ok tt)
    end.

(** [f.close()]. *)
Definition close (f : nat) (s : state) : state :=
  set_heap (alter MmapedDict.close f (heap s)) s.

Section WithKey.

(** [mmap_key] of [mmap_dict.py], which is not among the sources: the
    storage key, a function of the metric name, the sample name, the label
    names and the label values. *)
Variable mmap_key : string -> string -> list string -> list string -> string.

Definition key_of (p : params) : string :=
  mmap_key (metric_name p) (name p) (labelnames p) (labelvalues p).

(** The first lines of [__reset]. *)
Definition file_prefix_of (p : params) : option string :=
  if bool_decide (typ p = Some "gauge")
  then Some ("gauge" +:+ "_" +:+ multiprocess_mode p)
  else typ p.

(** [__reset], up to [self._file = files[file_prefix]]: the store of the
    prefix, opened if [files] does not have it. *)
Definition attach (file_prefix : option string) : M nat :=
  known <- gets (fun s => files s !! file_prefix) ;;
  match known with
  | Some f => ret f
  | None =>
    dir <- gets (fun s => environ s !! CURRENT) ;;
    p <- gets pid ;;
    match dir with
    | None => raise TypeError
    | Some d =>
      f <- open (Py.os_path_join d (Py.format_db file_prefix p)) ;;
      modify (fun s => set_files (<[file_prefix := f]> (files s)) s) ;;
      ret f
    end
  end.

Definition value_at (i : nat) : M MmapedValue :=
  fun s =>
    match values s !! i with
    | Some v => (s, Ok v)
    | None => (s, Raise BadReference)
    end.

(** [self.attr = x] on the instance at position [i]. *)
Definition assign (i : nat) (upd : MmapedValue -> MmapedValue) : M unit :=
  modify (fun s => set_values (alter upd i (values s)) s).

Definition with_file (f : nat) (v : MmapedValue) : MmapedValue :=
  {| _params := _params v; _file := f; _key := _key v; _value := _value v |}.

Definition with_key (k : string) (v : MmapedValue) : MmapedValue :=
  {| _params := _params v; _file := _file v; _key := k; _value := _value v |}.

Definition with_value (x : float) (v : MmapedValue) : MmapedValue :=
  {| _params := _params v; _file := _file v; _key := _key v; _value := x |}.

(** [value.__reset()] for the instance at position [i] of [values]. *)
Definition reset (i : nat) : M unit :=
  v <- value_at i ;;
  f <- attach (file_prefix_of (_params v)) ;;
  assign i (with_file f) ;;
  assign i (with_key (key_of (_params v))) ;;
  x <- read_value f (key_of (_params v)) ;;
  assign i (with_value x).

(** [for f in files.values(): f.close()]. *)
Definition close_all (s : state) : state :=
  foldr close s (snd <$> map_to_list (files s)).

(** [__check_for_pid_change]; [actual_pid] is what [process_identifier()]
    returns in this call. *)
Definition check_for_pid_change (actual_pid : Z) : M unit :=
  p <- gets pid ;;
  if bool_decide (p <> actual_pid) then
    modify (set_pid actual_pid) ;;
    modify close_all ;;
    modify (set_files ∅) ;;
    n <- gets (fun s => length (values s)) ;;
    for_each (seq 0 n) reset
  else ret tt.

(** The compatibility lines of [__init__]. *)
Definition legacy_compat : M unit :=
  fun s =>
    match environ s !! LEGACY, environ s !! CURRENT with
    | Some d, None =>
      (set_warned (warned s ++ [DEPRECATION])
         (set_environ (<[CURRENT := d]> (environ s)) s), Ok tt)
    | _, _ => (s, Ok tt)
    end.

(** [MmapedValue(typ, metric_name, name, labelnames, labelvalues,
    multiprocess_mode)]. The new object is in no collection until
    [values.append(self)], so its [__reset] is run on the arguments and the
    instance is built when it is appended; the result is its position. *)
Definition init (ps : params) (actual_pid : Z) : M nat :=
  legacy_compat ;;
  check_for_pid_change actual_pid ;;
  f <- attach (file_prefix_of ps) ;;
  x <- read_value f (key_of ps) ;;
  i <- gets (fun s => length (values s)) ;;
  modify (fun s => set_values
    (values s ++ [{| _params := ps; _file := f; _key := key_of ps; _value := x |}]) s) ;;
  ret i.

Definition inc (i : nat) (amount : float) (actual_pid : Z) : M unit :=
  check_for_pid_change actual_pid ;;
  v <- value_at i ;;
  assign i (with_value (_value v + amount)%float) ;;
  write_value (_file v) (_key v) (_value v + amount)%float.

Definition set (i : nat) (value : float) (actual_pid : Z) : M unit :=
  check_for_pid_change actual_pid ;;
  v <- value_at i ;;
  assign i (with_value value) ;;
  write_value (_file v) (_key v) value.

Definition get (i : nat) (actual_pid : Z) : M float :=
  check_for_pid_change actual_pid ;;
  v <- value_at i ;;
  ret (_value v).

Section WithExemplar.
Variable Exemplar : Type.

Definition set_exemplar (i : nat) (exemplar : Exemplar) : M unit := ret tt.

Definition get_exemplar (i : nat) : M (option Exemplar) := ret None.

End WithExemplar.

End WithKey.

(** [MultiProcessValue(process_identifier)] called in process [os]: a fresh
    closure, with [pid] what the identifier returns at that moment. *)
Definition MultiProcessValue (process_identifier : Z) (os : state) : state :=
  set_pid process_identifier (set_values [] (set_files ∅ os)).

End MultiProcessValue.

(** ** [get_value_class] *)

Inductive value_class : Type :=
| MutexValueClass
| MmapedValueClass (closure : MultiProcessValue.state).

(** [getpid] is what [os.getpid()], the default [process_identifier],
    returns when the factory is called. *)
Definition get_value_class (os : MultiProcessValue.state) (getpid : Z) : value_class :=
  if bool_decide (is_Some (MultiProcessValue.environ os !! MultiProcessValue.LEGACY))
     || bool_decide (is_Some (MultiProcessValue.environ os !! MultiProcessValue.CURRENT))
  then MmapedValueClass (MultiProcessValue.MultiProcessValue getpid os)
  else MutexValueClass.

(** ** The requests made to the shared backend, and what its states satisfy *)

Module Shared.
Import MultiProcessValue.

(** The file that [__reset] opens for a prefix. *)
Definition db_path (dir : string) (file_prefix : option string) (p : Z) : string :=
  Py.os_path_join dir (Py.format_db file_prefix p).

(** No request to the file system fails. *)
Definition healthy (s : state) : Prop := forall op, failing s op = false.

(** Every store of [files] is open, on the file named after its prefix and
    the cached [pid], in directory [dir]. *)
Definition files_ok (dir : string) (s : state) : Prop :=
  forall q f, files s !! q = Some f ->
    heap s !! f = Some (MmapedDict.Build (db_path dir q (pid s)) false).

(** What [__reset] may change besides the instance: it opens stores and adds
    them to [files]. *)
Definition grows (s s' : state) : Prop :=
  environ s' = environ s /\ disk s' = disk s /\ failing s' = failing s /\
  warned s' = warned s /\ pid s' = pid s /\
  heap s `prefix_of` heap s' /\
  files s ⊆ files s' /\
  (forall q f, files s' !! q = Some f -> files s !! q = Some f \/ (length (heap s) <= f)%nat).

(** The state in which the loop of [__check_for_pid_change] starts. *)
Definition forked (p : Z) (s : state) : state :=
  set_files ∅ (close_all (set_pid p s)).

(** The state that the identity check leaves when there is no instance. *)
Definition checked (p : Z) (s : state) : state :=
  if bool_decide (pid s <> p) then forked p s else s.

(** The lines that [inc] and [set] share after the identity check; [g] gives
    the new float from the cached one. *)
Definition write_back (g : float -> float) (i : nat) : M unit :=
  bind (value_at i) (fun v =>
  bind (assign i (with_value (g (_value v)))) (fun _ =>
  write_value (_file v) (_key v) (g (_value v)))).

(** The state after the cached float of instance [i] is replaced. *)
Definition cached (i : nat) (x : float) (s : state) : state :=
  set_values (alter (with_value x) i (values s)) s.

(** The state after the float is written to the file. *)
Definition stored (path key : string) (x : float) (s : state) : state :=
  set_disk (<[(path, key) := x]> (disk s)) s.

(** [m] runs the same under the change [h] of the state. *)
Definition commutes (h : state -> state) {A : Type} (m : M A) : Prop :=
  forall s, m (h s) = (h (m s).1, (m s).2).

(** [m] leaves the part [f] of the state as it is. *)
Definition keeps {B : Type} (f : state -> B) {A : Type} (m : M A) : Prop :=
  forall s, f (m s).1 = f s.

(** What the statements after the compatibility lines leave as it is: the
    environment and the warnings. *)
Definition outside (s : state) : gmap string string * list string :=
  (environ s, warned s).

(** A call on the class or on one of its instances; each comes with what
    [process_identifier()] returns during the call. *)
Inductive request : Type :=
| Construct (ps : params)
| DoInc (i : nat) (amount : float)
| DoSet (i : nat) (value : float)
| DoGet (i : nat).

Inductive answer : Type :=
| Index (i : nat)
| NoneValue
| Float (x : float).

Definition is_construct (r : request) : bool :=
  match r with
  | Construct _ => true
  | _ => false
  end.

Definition constructs (calls : list (request * Z)) : bool :=
  existsb (fun c => is_construct c.1) calls.

Section WithKey.
Variable mmap_key : string -> string -> list string -> list string -> string.

(** An instance holds the store that [files] has for its prefix, and the
    key of its identity. *)
Definition attached (s : state) (v : MmapedValue) : Prop :=
  files s !! file_prefix_of (_params v) = Some (_file v) /\
  _key v = key_of mmap_key (_params v).

Definition consistent (dir : string) (s : state) : Prop :=
  files_ok dir s /\ forall i v, values s !! i = Some v -> attached s v.

(** The instance that [__reset] leaves: attached to store [f], with the
    float that the file of its prefix has under its key. *)
Definition loaded (dir : string) (s : state) (ps : params) (f : nat) : MmapedValue :=
  Instance_ ps f (key_of mmap_key ps)
    (default 0%float
       (disk s !! (db_path dir (file_prefix_of ps) (pid s), key_of mmap_key ps))).

(** [__init__] after its compatibility lines. *)
Definition init_rest (ps : params) (p : Z) : M nat :=
  bind (check_for_pid_change mmap_key p) (fun _ =>
  bind (attach (file_prefix_of ps)) (fun f =>
  bind (read_value f (key_of mmap_key ps)) (fun x =>
  bind (gets (fun s => length (values s))) (fun i =>
  bind (modify (fun s => set_values
          (values s ++ [Instance_ ps f (key_of mmap_key ps) x]) s)) (fun _ =>
  ret i))))).

Definition perform (r : request) (actual_pid : Z) : M answer :=
  match r with
  | Construct ps => bind (init mmap_key ps actual_pid) (fun i => ret (Index i))
  | DoInc i amount => bind (inc mmap_key i amount actual_pid) (fun _ => ret NoneValue)
  | DoSet i value => bind (set mmap_key i value actual_pid) (fun _ => ret NoneValue)
  | DoGet i => bind (get mmap_key i actual_pid) (fun x => ret (Float x))
  end.

(** The calls of a program, one after the other; a call that raises leaves
    its effects and the program goes on (the caller caught the error). *)
Fixpoint perform_all (calls : list (request * Z)) (s : state) : state * list (result answer) :=
  match calls with
  | [] => (s, [])
  | (r, p) :: rest =>
    let '(s', a) := perform r p s in
    let '(s'', answers) := perform_all rest s' in
    (s'', a :: answers)
  end.

End WithKey.
End Shared.

(** ** Inputs for running the model *)

Module Examples.
Import MultiProcessValue Shared.

(** Modelled from the spec: [mmap_key] is in [mmap_dict.py], which is not
    among the sources; the spec asks for a key derived deterministically
    from the metric name, the sample name, the label names and the label
    values. This one lists them. It serves to run the model on examples;
    the theorems hold for every key function. *)
Definition example_key (metric_name name : string)
    (labelnames labelvalues : list string) : string :=
  metric_name +:+ "|" +:+ name +:+ "|" +:+ String.concat "," labelnames
  +:+ "|" +:+ String.concat "," labelvalues.

(** A process with the directory set under the current name, no file yet,
    and a file system that answers. *)
Definition example_os : state :=
  {| environ := {[ CURRENT := "/tmp/prom" ]}; disk := ∅; heap := [];
     failing := fun _ => false; warned := [];
     files := ∅; values := []; pid := 0 |}.

(** The same with the directory under the legacy name only. *)
Definition legacy_os : state :=
  set_environ {[ LEGACY := "/tmp/prom" ]} example_os.

(** A process whose files cannot be written. *)
Definition readonly_os : state :=
  {| environ := {[ CURRENT := "/tmp/prom" ]}; disk := ∅; heap := [];
     failing := fun op => match op with Write _ _ => true | _ => false end;
     warned := []; files := ∅; values := []; pid := 0 |}.

Definition counter_params : params :=
  {| typ := Some "counter"; metric_name := "requests_total";
     name := "requests_total"; labelnames := []; labelvalues := [];
     multiprocess_mode := "" |}.

Definition gauge_params (mode : string) : params :=
  {| typ := Some "gauge"; metric_name := "in_progress";
     name := "in_progress"; labelnames := ["method"]; labelvalues := ["GET"];
     multiprocess_mode := mode |}.

(** The state after one counter has been constructed under identity 100. *)
Definition one_counter : state :=
  (perform_all example_key [(Construct counter_params, 100)]
     (MultiProcessValue 100 example_os)).1.

(** The same in the process whose files cannot be written. *)
Definition readonly_counter : state :=
  (perform_all example_key [(Construct counter_params, 100)]
     (MultiProcessValue 100 readonly_os)).1.

End Examples.

(** ** [MutexValue]: what the calls return, and who holds the lock *)

Module Replay.
Section WithExemplar.
Context {Exemplar : Type}.

(** What a call returns when it runs alone on the instance: [inc], [set] and
    [set_exemplar] return [None]. *)
Definition ret_of (c : MutexValue.call Exemplar) (self : MutexValue.t Exemplar) :
    MutexValue.retval Exemplar :=
  match c with
  | MutexValue.Get => MutexValue.RFloat (MutexValue.get _ self)
  | MutexValue.GetExemplar => MutexValue.RExemplar _ (MutexValue.get_exemplar _ self)
  | _ => MutexValue.RNone
  end.

(** The calls of [order], each tagged with its thread, run one after the
    other: what each returns. *)
Fixpoint replay (order : list (nat * MutexValue.call Exemplar))
    (self : MutexValue.t Exemplar) : list (nat * MutexValue.retval Exemplar) :=
  match order with
  | [] => []
  | (i, c) :: rest => (i, ret_of c self) :: replay rest (MutexValue.apply _ c self)
  end.

(** The entries of thread [i], in their order. *)
Definition of_thread {A : Type} (i : nat) (l : list (nat * A)) : list A :=
  omap (fun x => if decide (x.1 = i) then Some x.2 else None) l.

(** The value a thread is about to return. *)
Definition leaving (th : MutexValue.thread Exemplar) : list (MutexValue.retval Exemplar) :=
  match MutexValue.at_pc _ th with
  | MutexValue.Leaving _ r => [r]
  | _ => []
  end.

(** The calls performed so far, in the order they took effect, account for
    each thread's program and for the values it was given back. *)
Definition tracked (self : MutexValue.t Exemplar)
    (progs : list (list (MutexValue.call Exemplar)))
    (s : MutexValue.shared Exemplar) : Prop :=
  exists done : list (nat * MutexValue.call Exemplar),
    MutexValue.obj _ s = MutexValue.exec _ (done.*2) self /\
    Forall (fun x => (x.1 < length progs)%nat) done /\
    forall i th, MutexValue.threads _ s !! i = Some th ->
      progs !! i = Some (of_thread i done ++ MutexValue.pending _ th) /\
      of_thread i (replay done self) = MutexValue.returned _ th ++ leaving th.

(** The lock is held by a thread that is inside a call. *)
Definition held (s : MutexValue.shared Exemplar) : Prop :=
  forall i, MutexValue.lock _ s = Some i ->
    exists th, MutexValue.threads _ s !! i = Some th /\
               MutexValue.at_pc _ th <> MutexValue.Idle.

(** No thread is inside a call. *)
Definition resting (s : MutexValue.shared Exemplar) : Prop :=
  MutexValue.lock _ s = None /\
  forall i th, MutexValue.threads _ s !! i = Some th ->
               MutexValue.at_pc _ th = MutexValue.Idle.

End WithExemplar.
End Replay.

(** ** The shared backend: the identities in the registry, and the value
    methods that the two backends have in common *)

Module Common.
Import MultiProcessValue Shared.

(** The constructor arguments of the registered instances, in the order of
    their registration. *)
Definition identities (s : state) : list params := _params <$> values s.

(** [inc], [set] and [get], which [MutexValue] and [MmapedValue] both
    implement on a float. *)
Inductive method : Type :=
| MInc (amount : float)
| MSet (value : float)
| MGet.

Definition to_call {Exemplar : Type} (m : method) : MutexValue.call Exemplar :=
  match m with
  | MInc amount => MutexValue.Inc amount
  | MSet value => MutexValue.Set_ value
  | MGet => MutexValue.Get
  end.

Definition to_request (i : nat) (m : method) : request :=
  match m with
  | MInc amount => DoInc i amount
  | MSet value => DoSet i value
  | MGet => DoGet i
  end.

(** What the methods return run one after the other on a [MutexValue]. *)
Fixpoint returns {Exemplar : Type} (calls : list (MutexValue.call Exemplar))
    (self : MutexValue.t Exemplar) : list (MutexValue.retval Exemplar) :=
  match calls with
  | [] => []
  | c :: rest => Replay.ret_of c self :: returns rest (MutexValue.apply _ c self)
  end.

Definition to_answer {Exemplar : Type} (r : MutexValue.retval Exemplar) : answer :=
  match r with
  | MutexValue.RFloat x => Float x
  | _ => NoneValue
  end.

End Common.

(** ** More example states *)

Module MoreExamples.
Import MultiProcessValue Shared Examples.

(** Two instances of the same counter, constructed under identity 100. *)
Definition two_counters : state :=
  (perform_all example_key
     [(Construct counter_params, 100); (Construct counter_params, 100)]
     (MultiProcessValue 100 example_os)).1.

(** A second counter, of another metric. *)
Definition errors_params : params :=
  {| typ := Some "counter"; metric_name := "errors_total";
     name := "errors_total"; labelnames := []; labelvalues := [];
     multiprocess_mode := "" |}.

(** A process with the directory under neither name. *)
Definition unconfigured_os : state := set_environ ∅ example_os.

(** Two threads on one [MutexValue]: the first adds 1.0 and reads, the
    second sets 5.0 and reads. *)
Definition two_threads : list (list (MutexValue.call unit)) :=
  [[MutexValue.Inc 1%float; MutexValue.Get];
   [MutexValue.Set_ 5%float; MutexValue.Get]].

(** Two threads that only read. *)
Definition two_readers : list (list (MutexValue.call unit)) :=
  [[MutexValue.Get; MutexValue.GetExemplar]; [MutexValue.Get]].

(** Each thread in turn, for as many steps as its calls take. *)
Definition one_after_the_other : list nat :=
  replicate 12 0%nat ++ replicate 12 1%nat.

(** The second thread asks for the lock while the first holds it, and the
    threads alternate call by call afterwards. *)
Definition interleaved : list nat :=
  [0; 1; 0; 0; 0; 1; 1; 1; 1; 0; 0; 0; 0; 1; 1; 1; 1; 0; 0; 0; 0]%nat.

(** The amounts of two threads that call [inc], one of them negative. *)
Definition up_and_down : list (list float) := [[1; -2]; [4]]%float.

(** A schedule that lets the three calls of [up_and_down] return. *)
Definition incs_schedule : list nat :=
  [0; 1; 0; 0; 0; 1; 1; 1; 1; 0; 0; 0; 0]%nat.

End MoreExamples.

(** * Properties *)

(** ** Orders of calls *)

Lemma merges_fmap_inv {A B : Type} (f : A -> B) (progs : list (list A)) (order : list B) :
  merges ((fmap f : list A -> list B) <$> progs) order ->
  exists order' : list A, order = f <$> order' /\ merges progs order'.
Proof.
  intros H. remember ((fmap f : list A -> list B) <$> progs) as Q eqn:HQ.
  revert progs HQ. induction H as [Q Hall | Q i c rest order Hi _ IH]; intros progs ->.
  - exists []. split; [done |]. constructor.
    rewrite Forall_fmap in Hall. eapply Forall_impl; [exact Hall |].
    intros p Hp. simpl in Hp. by apply fmap_nil_inv in Hp.
  - rewrite list_lookup_fmap in Hi.
    destruct (progs !! i) as [p |] eqn:Hp; simplify_eq/=.
    destruct p as [| a p']; simplify_eq/=.
    destruct (IH (<[i := p']> progs)) as (o' & -> & Hm).
    { by rewrite list_fmap_insert. }
    exists (a :: o'). split; [done |]. by econstructor.
Qed.

Lemma merges_single {A : Type} (l order : list A) :
  merges [l] order -> order = l.
Proof.
  intros H. remember [l] as Q eqn:HQ. revert l HQ.
  induction H as [Q Hall | Q i c rest order Hi _ IH]; intros l ->.
  - by inversion_clear Hall.
  - destruct i as [| i]; simplify_eq/=. f_equal. by apply IH.
Qed.

(** ** [MutexValue]: the calls of concurrent threads take effect one at a time *)

Section MutexValue_threads.
Import MutexValue.
Context {Exemplar : Type}.
Implicit Types (s : shared Exemplar) (th : thread Exemplar) (c : call Exemplar).
Implicit Types (self : t Exemplar) (progs : list (list (call Exemplar))).


Lemma linearized_spawn self progs : linearized self progs (spawn _ self progs).
Proof.
  split; [| split].
  - exists []. split; [done |]. intros rest. simpl.
    rewrite <- list_fmap_compose.
    rewrite (list_fmap_ext _ id progs); [| done].
    by rewrite list_fmap_id.
  - intros i th. simpl. rewrite list_lookup_fmap.
    destruct (progs !! i); intros; simplify_eq/=.
  - intros i th a tmp. simpl. rewrite list_lookup_fmap.
    destruct (progs !! i); intros; simplify_eq/=.
Qed.


Lemma exec_snoc c (calls : list (call Exemplar)) self :
  exec _ (calls ++ [c]) self = apply _ c (exec _ calls self).
Proof. unfold exec. by rewrite fold_left_app. Qed.

(** A step that leaves the instance and the pending calls as they are. *)
Lemma linearized_silent self progs s i th th' l :
  linearized self progs s ->
  threads _ s !! i = Some th ->
  pending _ th' = pending _ th ->
  (at_pc _ th' <> Idle -> l = Some i) ->
  (forall j thj, j <> i -> threads _ s !! j = Some thj -> at_pc _ thj <> Idle ->
                 l = Some j) ->
  (forall amount tmp, at_pc _ th' = Loaded _ amount tmp -> tmp = _value _ (obj _ s)) ->
  linearized self progs (goto _ i th' s (obj _ s) l).
Proof.
  intros (Hdone & Hlock & Hload) Hi Hpend Hme Hothers Hmine.
  split; [| split]; simpl.
  - destruct Hdone as (done' & Hobj & Hm). exists done'. split; [done |].
    intros rest. rewrite list_fmap_insert, Hpend, list_insert_id; [apply Hm |].
    by rewrite list_lookup_fmap, Hi.
  - intros j thj [(-> & <- & _) | (Hne & Hj)]%list_lookup_insert_Some Hat; eauto.
  - intros j thj amount tmp [(-> & <- & _) | (Hne & Hj)]%list_lookup_insert_Some Hat;
      eauto.
Qed.

(** A step at which the pending call [c] of thread [i] takes effect. *)
Lemma linearized_commit self progs s i th th' c :
  linearized self progs s ->
  threads _ s !! i = Some th ->
  pending _ th = c :: pending _ th' ->
  at_pc _ th <> Idle ->
  (forall amount tmp, at_pc _ th' <> Loaded _ amount tmp) ->
  linearized self progs (goto _ i th' s (apply _ c (obj _ s)) (lock _ s)).
Proof.
  intros (Hdone & Hlock & Hload) Hi Hpend Hat Hnl.
  assert (lock _ s = Some i) as Hl by eauto.
  split; [| split]; simpl.
  - destruct Hdone as (done' & Hobj & Hm). exists (done' ++ [c]). split.
    { by rewrite exec_snoc, Hobj. }
    intros rest Hrest. rewrite <- app_assoc. simpl. apply Hm.
    rewrite list_fmap_insert in Hrest.
    eapply merges_next; [| exact Hrest].
    by rewrite list_lookup_fmap, Hi; simpl; rewrite Hpend.
  - intros j thj [(-> & <- & _) | (Hne & Hj)]%list_lookup_insert_Some Hatj; eauto.
  - intros j thj amount tmp [(-> & <- & _) | (Hne & Hj)]%list_lookup_insert_Some Hatj.
    + by destruct (Hnl amount tmp).
    + assert (lock _ s = Some j) as Hl'.
      { eapply Hlock; [exact Hj |]. by rewrite Hatj. }
      congruence.
Qed.

Lemma linearized_step self progs s i :
  linearized self progs s -> linearized self progs (step _ i s).
Proof.
  intros Hinv. unfold step.
  destruct (threads _ s !! i) as [th |] eqn:Hi; [| done].
  pose proof Hinv as (_ & Hlock & Hload).
  destruct th as [p td rs]. simpl.
  destruct p as [| c | amount tmp | r].
  - (* acquiring the lock *)
    destruct td as [| c rest]; [done |].
    destruct (lock _ s) as [holder |] eqn:Hl; [done |].
    apply (linearized_silent self progs s i _ _ _ Hinv Hi); simpl; try done.
    intros j thj _ Hj Hat. specialize (Hlock j thj Hj Hat). congruence.
  - assert (lock _ s = Some i) as Hl by (eapply Hlock; [exact Hi | done]).
    destruct c as [amount | value | e | |].
    + (* the read of [+=] *)
      apply (linearized_silent self progs s i _ _ _ Hinv Hi); simpl; try done.
      * intros j thj _ Hj Hat. eauto.
      * by intros ? ? [= _ <-].
    + apply (linearized_commit self progs s i _ _ (Set_ value) Hinv Hi); done.
    + apply (linearized_commit self progs s i _ _ (SetExemplar _ e) Hinv Hi); done.
    + apply (linearized_commit self progs s i _ _ Get Hinv Hi); done.
    + apply (linearized_commit self progs s i _ _ GetExemplar Hinv Hi); done.
  - (* the write of [+=] *)
    rewrite (Hload i _ amount tmp Hi eq_refl).
    apply (linearized_commit self progs s i _ _ (Inc amount) Hinv Hi); done.
  - (* releasing the lock *)
    assert (lock _ s = Some i) as Hl by (eapply Hlock; [exact Hi | done]).
    apply (linearized_silent self progs s i _ _ _ Hinv Hi); simpl; try done.
    intros j thj Hne Hj Hat. specialize (Hlock j thj Hj Hat). congruence.
Qed.

Lemma linearized_run self progs sched s :
  linearized self progs s -> linearized self progs (run _ sched s).
Proof.
  revert s. induction sched as [| i sched IH]; intros s Hinv; [done |].
  simpl. apply IH. by apply linearized_step.
Qed.

(** Once every thread has returned from its last call, the instance is what
    the calls make of it when they run one after the other, in an order that
    keeps each thread's own. *)
Lemma run_linearizable self progs sched :
  quiescent _ (run _ sched (spawn _ self progs)) = true ->
  exists order,
    merges progs order /\
    obj _ (run _ sched (spawn _ self progs)) = exec _ order self.
Proof.
  intros Hq.
  destruct (linearized_run self progs sched _ (linearized_spawn self progs))
    as ((done' & Hobj & Hm) & _).
  exists done'. split; [| done].
  rewrite <- (app_nil_r done'). apply Hm. constructor.
  apply Forall_fmap, Forall_forall. intros th Hth. simpl.
  unfold quiescent in Hq. rewrite forallb_forall in Hq.
  specialize (Hq th (proj1 (list_elem_of_In _ _) Hth)).
  unfold finished in Hq. unfold pending.
  destruct (at_pc _ th); try done. by destruct (todo _ th).
Qed.

Lemma exec_incs (amounts : list float) (self : t Exemplar) :
  exec _ (Inc <$> amounts) self = fold_left (fun o a => inc _ a o) amounts self.
Proof.
  revert self. induction amounts as [| a l IH]; intros self; [done |].
  simpl. apply IH.
Qed.

Lemma get_incs (amounts : list float) (self : t Exemplar) :
  get _ (fold_left (fun o a => inc _ a o) amounts self)
  = fold_left PrimFloat.add amounts (get _ self).
Proof.
  revert self. induction amounts as [| a l IH]; intros self; [done |].
  simpl. by rewrite IH.
Qed.

End MutexValue_threads.

(** ** The shared backend: the primitives *)

Section MmapedValue_primitives.
Import MultiProcessValue Shared.

Lemma close_list_fields (l : list nat) s :
  environ (foldr close s l) = environ s /\ disk (foldr close s l) = disk s /\
  failing (foldr close s l) = failing s /\ warned (foldr close s l) = warned s /\
  files (foldr close s l) = files s /\ values (foldr close s l) = values s /\
  pid (foldr close s l) = pid s.
Proof. induction l as [| f l IH]; [done |]. simpl. exact IH. Qed.

Lemma close_all_fields s :
  environ (close_all s) = environ s /\ disk (close_all s) = disk s /\
  failing (close_all s) = failing s /\ warned (close_all s) = warned s /\
  files (close_all s) = files s /\ values (close_all s) = values s /\
  pid (close_all s) = pid s.
Proof. apply close_list_fields. Qed.

Lemma close_list_heap (l : list nat) s j :
  heap (foldr close s l) !! j
  = (if bool_decide (j ∈ l) then MmapedDict.close else id) <$> heap s !! j.
Proof.
  induction l as [| f l IH]; simpl.
  - by destruct (heap s !! j).
  - rewrite list_lookup_alter. destruct (decide (f = j)) as [-> | Hne].
    + rewrite IH. rewrite (bool_decide_eq_true_2 (j ∈ j :: l)) by (by apply elem_of_cons; left).
      destruct (heap s !! j) as [d |]; [| done]. simpl.
      by case_bool_decide.
    + rewrite IH. destruct (heap s !! j) as [d |]; [| done]. simpl.
      f_equal. destruct (decide (j ∈ l)) as [Hin | Hin].
      * rewrite !bool_decide_eq_true_2; [done | by apply elem_of_cons; right | done].
      * rewrite !bool_decide_eq_false_2; [done | | done].
        by intros [? | ?]%elem_of_cons.
Qed.

Lemma elem_of_files_values s j :
  j ∈ (map_to_list (files s)).*2 <-> exists q, files s !! q = Some j.
Proof.
  rewrite list_elem_of_fmap. split.
  - intros ([q f] & -> & Hin). exists q. by apply elem_of_map_to_list.
  - intros (q & Hq). exists (q, j). split; [done |]. by apply elem_of_map_to_list.
Qed.

(** After [for f in files.values(): f.close()], the stores that [files]
    holds are closed and the other store objects are as they were. *)
Lemma close_all_closes s q j :
  files s !! q = Some j ->
  heap (close_all s) !! j = MmapedDict.close <$> heap s !! j.
Proof.
  intros Hq. unfold close_all. rewrite close_list_heap.
  rewrite bool_decide_eq_true_2; [done |]. apply elem_of_files_values. eauto.
Qed.

Lemma close_all_keeps s j :
  (forall q, files s !! q <> Some j) ->
  heap (close_all s) !! j = heap s !! j.
Proof.
  intros Hq. unfold close_all. rewrite close_list_heap.
  rewrite bool_decide_eq_false_2.
  - by destruct (heap s !! j).
  - intros (q & Hin)%elem_of_files_values. by apply (Hq q).
Qed.

Lemma close_all_length s : length (heap (close_all s)) = length (heap s).
Proof.
  unfold close_all. induction (snd <$> map_to_list (files s)) as [| f l IH]; [done |].
  simpl. by rewrite length_alter.
Qed.



Lemma grows_refl s : grows s s.
Proof. unfold grows. repeat split; eauto. Qed.

Lemma grows_trans s1 s2 s3 : grows s1 s2 -> grows s2 s3 -> grows s1 s3.
Proof.
  intros (He & Hd & Hf & Hw & Hp & Hh & Hs & Hn)
         (He' & Hd' & Hf' & Hw' & Hp' & Hh' & Hs' & Hn').
  unfold grows. repeat split; try congruence.
  - by etrans.
  - by etrans.
  - intros q f Hq. destruct (Hn' q f Hq) as [Hq' | Hge]; [by apply Hn |].
    right. apply prefix_length in Hh. lia.
Qed.

Lemma grows_values s v : grows s (set_values v s).
Proof. unfold grows. simpl. repeat split; eauto. Qed.

Lemma attach_ok dir s q :
  files_ok dir s -> environ s !! CURRENT = Some dir -> healthy s ->
  exists s' f,
    attach q s = (s', Ok f) /\ files s' !! q = Some f /\
    files_ok dir s' /\ grows s s' /\ values s' = values s.
Proof.
  intros Hfiles Henv Hok. unfold attach, bind, gets. simpl.
  destruct (files s !! q) as [f |] eqn:Hq.
  - exists s, f. repeat split; auto using grows_refl.
  - rewrite Henv. unfold open, bind, modify, ret. rewrite Hok. simpl.
    eexists _, _. split; [reflexivity |]. simpl.
    split; [by rewrite lookup_insert_eq |]. split; [| split; [| done]].
    + intros q' f'. unfold files_ok. simpl.
      rewrite lookup_insert. case_decide as Hqq.
      * intros [= <-]. subst q'. by rewrite lookup_app_r, Nat.sub_diag.
      * intros Hq'. rewrite lookup_app_l; [by apply Hfiles |].
        eapply lookup_lt_Some. by apply Hfiles.
    + unfold grows. simpl. repeat split; auto.
      * by apply prefix_app_r.
      * by apply insert_subseteq.
      * intros q' f'. rewrite lookup_insert. case_decide; [intros [= <-]; by right | by left].
Qed.

Lemma read_value_open s f path key :
  heap s !! f = Some (MmapedDict.Build path false) ->
  failing s (Read path key) = false ->
  read_value f key s = (s, Ok (default 0%float (disk s !! (path, key)))).
Proof. intros Hf Hok. unfold read_value. rewrite Hf. simpl. by rewrite Hok. Qed.

Lemma write_value_open s f path key x :
  heap s !! f = Some (MmapedDict.Build path false) ->
  failing s (Write path key) = false ->
  write_value f key x s = (set_disk (<[(path, key) := x]> (disk s)) s, Ok tt).
Proof. intros Hf Hok. unfold write_value. rewrite Hf. simpl. by rewrite Hok. Qed.

Lemma assign_all (l : list MmapedValue) i v f k x :
  l !! i = Some v ->
  alter (with_value x) i (alter (with_key k) i (alter (with_file f) i l))
  = <[i := Instance_ (_params v) f k x]> l.
Proof.
  intros Hi. apply list_eq. intros j.
  destruct (decide (i = j)) as [<- | Hne].
  - rewrite !list_lookup_alter_eq, Hi. simpl.
    rewrite list_lookup_insert_eq; [done |]. by eapply lookup_lt_Some.
  - by rewrite !list_lookup_alter_ne, list_lookup_insert_ne.
Qed.

Section WithKey.
Variable mmap_key : string -> string -> list string -> list string -> string.


Lemma reset_ok dir s i v :
  files_ok dir s -> environ s !! CURRENT = Some dir -> healthy s ->
  values s !! i = Some v ->
  exists s' f,
    reset mmap_key i s = (s', Ok tt) /\
    values s' = <[i := loaded mmap_key dir s (_params v) f]> (values s) /\
    files s' !! file_prefix_of (_params v) = Some f /\
    files_ok dir s' /\ grows s s'.
Proof.
  intros Hfiles Henv Hok Hi. unfold reset, bind, value_at. rewrite Hi.
  destruct (attach_ok dir s (file_prefix_of (_params v)) Hfiles Henv Hok)
    as (s1 & f & -> & Hf & Hfiles1 & Hgrow & Hvals).
  pose proof Hgrow as (He & Hd & Hfail & Hw & Hp & _).
  unfold assign, modify. simpl.
  erewrite read_value_open; simpl; [| by apply Hfiles1 | by rewrite Hfail].
  eexists _, f. split; [reflexivity |]. simpl.
  rewrite Hvals, (assign_all _ _ v) by done.
  rewrite Hd, Hp. split; [done |]. split; [done |]. split; [done |].
  eapply grows_trans; [exact Hgrow |]. unfold grows. simpl.
  repeat split; auto.
Qed.


(** The loop of [__check_for_pid_change], from position [k] on: the
    instances before [k] stay as they are, the others are reloaded. *)
Lemma resync_loop dir n : forall k s,
  files_ok dir s -> environ s !! CURRENT = Some dir -> healthy s ->
  (k + n)%nat = length (values s) ->
  exists s',
    for_each (seq k n) (reset mmap_key) s = (s', Ok tt) /\
    files_ok dir s' /\ grows s s' /\ length (values s') = length (values s) /\
    forall j v, values s !! j = Some v ->
      ((j < k)%nat -> values s' !! j = Some v) /\
      ((k <= j)%nat -> exists f,
          values s' !! j = Some (loaded mmap_key dir s (_params v) f) /\
          files s' !! file_prefix_of (_params v) = Some f).
Proof.
  induction n as [| n IH]; intros k s Hfiles Henv Hok Hlen.
  - exists s. split; [done |]. split; [done |]. split; [apply grows_refl |].
    split; [done |]. intros j v Hj. split; [done |]. intros Hk.
    apply lookup_lt_Some in Hj. lia.
  - assert (is_Some (values s !! k)) as [vk Hk] by (apply lookup_lt_is_Some; lia).
    destruct (reset_ok dir s k vk Hfiles Henv Hok Hk)
      as (s1 & f & Hreset & Hvals & Hf & Hfiles1 & Hgrow).
    pose proof Hgrow as (He & Hd & Hfail & Hw & Hp & _).
    assert (length (values s1) = length (values s)) as Hl
      by (by rewrite Hvals, length_insert).
    destruct (IH (S k) s1) as (s' & Hloop & Hfiles' & Hgrow' & Hl' & Hrest); auto.
    { by rewrite He. }
    { intros op. by rewrite Hfail. }
    { lia. }
    exists s'. simpl. unfold bind. rewrite Hreset.
    split; [exact Hloop |]. split; [done |].
    split; [by eapply grows_trans |]. split; [congruence |].
    intros j v Hj. split.
    + intros Hlt. apply (Hrest j v); [| lia].
      rewrite Hvals, list_lookup_insert_ne; [done | lia].
    + intros Hle. destruct (decide (j = k)) as [-> | Hne].
      * assert (v = vk) as -> by congruence.
        exists f. split.
        -- apply (Hrest k (loaded mmap_key dir s (_params vk) f)); [| lia].
           rewrite Hvals. apply list_lookup_insert_eq. by eapply lookup_lt_Some.
        -- destruct Hgrow' as (_ & _ & _ & _ & _ & _ & Hsub & _).
           by eapply lookup_weaken.
      * destruct (Hrest j v) as [_ Hre].
        { rewrite Hvals, list_lookup_insert_ne; [done | lia]. }
        destruct Hre as (f' & Hv' & Hf'); [lia |].
        exists f'. split; [| done]. rewrite Hv'. unfold loaded. by rewrite Hd, Hp.
Qed.



Lemma check_unfold s p :
  check_for_pid_change mmap_key p s
  = if bool_decide (pid s <> p)
    then for_each (seq 0 (length (values (forked p s)))) (reset mmap_key) (forked p s)
    else (s, Ok tt).
Proof.
  unfold check_for_pid_change, bind, gets, modify. by case_bool_decide.
Qed.

Lemma check_same_pid s p :
  pid s = p -> check_for_pid_change mmap_key p s = (s, Ok tt).
Proof.
  intros Hp. rewrite check_unfold.
  by rewrite bool_decide_eq_false_2 by (intros H; by apply H).
Qed.

(** [__check_for_pid_change] when the identity has changed. *)
Lemma check_resync dir s p :
  environ s !! CURRENT = Some dir -> healthy s -> pid s <> p ->
  exists s',
    check_for_pid_change mmap_key p s = (s', Ok tt) /\
    consistent mmap_key dir s' /\ grows (forked p s) s' /\
    length (values s') = length (values s) /\
    forall j v, values s !! j = Some v ->
      exists f, values s' !! j = Some (loaded mmap_key dir (set_pid p s) (_params v) f) /\
                files s' !! file_prefix_of (_params v) = Some f.
Proof.
  intros Henv Hok Hne.
  pose proof (close_all_fields (set_pid p s)) as (He & Hd & Hfail & Hw & _ & Hv & Hp).
  simpl in *.
  destruct (resync_loop dir (length (values s)) 0 (forked p s))
    as (s' & Hloop & Hfiles' & Hgrow & Hl & Hrest).
  { intros q f. unfold forked. simpl. by rewrite lookup_empty. }
  { unfold forked. simpl. by rewrite He. }
  { intros op. unfold forked. simpl. by rewrite Hfail. }
  { unfold forked. simpl. by rewrite Hv. }
  exists s'. rewrite check_unfold, bool_decide_eq_true_2 by done.
  replace (length (values (forked p s))) with (length (values s))
    by (unfold forked; simpl; by rewrite Hv).
  split; [exact Hloop |].
  assert (forall j v, values s !! j = Some v ->
    exists f, values s' !! j = Some (loaded mmap_key dir (set_pid p s) (_params v) f) /\
              files s' !! file_prefix_of (_params v) = Some f) as Hall.
  { intros j v Hj. destruct (Hrest j v) as [_ Hre].
    { unfold forked. simpl. by rewrite Hv. }
    destruct Hre as (f & Hv' & Hf); [lia |]. exists f. split; [| done].
    rewrite Hv'. unfold loaded, forked. simpl. by rewrite Hd, Hp. }
  unfold forked in Hl. simpl in Hl. rewrite Hv in Hl.
  split; [| split; [done | split; [done | exact Hall]]].
  split; [done |]. intros j v' Hj.
  assert (is_Some (values s !! j)) as [v Hv0].
  { apply lookup_lt_is_Some. apply lookup_lt_Some in Hj. lia. }
  destruct (Hall j v Hv0) as (f & Hv' & Hf).
  assert (v' = loaded mmap_key dir (set_pid p s) (_params v) f) as -> by congruence.
  by split.
Qed.


(** ** The shared backend: the methods *)


Lemma inc_unfold i amount p :
  inc mmap_key i amount p
  = bind (check_for_pid_change mmap_key p)
         (fun _ => write_back (fun x => (x + amount)%float) i).
Proof. reflexivity. Qed.

Lemma set_unfold i value p :
  set mmap_key i value p
  = bind (check_for_pid_change mmap_key p) (fun _ => write_back (fun _ => value) i).
Proof. reflexivity. Qed.


Lemma write_back_ok g i s v path :
  values s !! i = Some v ->
  heap s !! _file v = Some (MmapedDict.Build path false) ->
  failing s (Write path (_key v)) = false ->
  write_back g i s
  = (stored path (_key v) (g (_value v)) (cached i (g (_value v)) s), Ok tt).
Proof.
  intros Hi Hf Hok. unfold write_back, bind, value_at, assign, modify.
  rewrite Hi. by erewrite write_value_open.
Qed.

Lemma write_back_fails g i s v path :
  values s !! i = Some v ->
  heap s !! _file v = Some (MmapedDict.Build path false) ->
  failing s (Write path (_key v)) = true ->
  write_back g i s
  = (cached i (g (_value v)) s, Raise (OSError (Write path (_key v)))).
Proof.
  intros Hi Hf Hbad. unfold write_back, bind, value_at, assign, modify, write_value.
  rewrite Hi. simpl. rewrite Hf. simpl. by rewrite Hbad.
Qed.

Lemma write_back_missing g i s :
  values s !! i = None -> write_back g i s = (s, Raise BadReference).
Proof. intros Hi. unfold write_back, bind, value_at. by rewrite Hi. Qed.

Lemma consistent_cached dir i x s :
  consistent mmap_key dir s -> consistent mmap_key dir (cached i x s).
Proof.
  intros [Hfiles Hvals]. split; [done |]. intros j v. simpl.
  rewrite list_lookup_alter. case_decide as Hij; [| by apply Hvals].
  subst j. destruct (values s !! i) as [v0 |] eqn:Hi; [| done].
  intros [= <-]. by apply (Hvals i v0).
Qed.

Lemma consistent_stored dir path key x s :
  consistent mmap_key dir s -> consistent mmap_key dir (stored path key x s).
Proof. by intros [Hfiles Hvals]. Qed.

(** [inc] and [set] on a consistent state whose identity is the probe's. *)
Lemma write_back_consistent dir g i s v :
  consistent mmap_key dir s -> healthy s -> values s !! i = Some v ->
  write_back g i s
  = (stored (db_path dir (file_prefix_of (_params v)) (pid s)) (_key v) (g (_value v))
       (cached i (g (_value v)) s), Ok tt).
Proof.
  intros [Hfiles Hvals] Hok Hi. destruct (Hvals i v Hi) as [Hf _].
  apply write_back_ok; [done | by apply Hfiles | by apply Hok].
Qed.

Lemma legacy_compat_current s dir :
  environ s !! CURRENT = Some dir -> legacy_compat s = (s, Ok tt).
Proof. intros H. unfold legacy_compat. rewrite H. by destruct (environ s !! LEGACY). Qed.

(** [__init__] on a consistent state whose identity is the probe's. *)
Lemma init_same_pid dir s ps p :
  consistent mmap_key dir s -> environ s !! CURRENT = Some dir -> healthy s ->
  pid s = p ->
  exists s' f,
    init mmap_key ps p s = (s', Ok (length (values s))) /\
    values s' = values s ++ [loaded mmap_key dir s ps f] /\
    files s' !! file_prefix_of ps = Some f /\
    consistent mmap_key dir s' /\ grows s s'.
Proof.
  intros [Hfiles Hvals] Henv Hok Hp. unfold init, bind.
  rewrite (legacy_compat_current s dir Henv), (check_same_pid s p Hp).
  destruct (attach_ok dir s (file_prefix_of ps) Hfiles Henv Hok)
    as (s1 & f & -> & Hf & Hfiles1 & Hgrow & Hv1).
  pose proof Hgrow as (He & Hd & Hfail & Hw & Hp1 & _ & Hsub & _).
  erewrite read_value_open; [| by apply Hfiles1 | by rewrite Hfail].
  unfold gets, modify, ret. simpl. rewrite Hv1.
  eexists _, f. split; [reflexivity |]. simpl. unfold loaded.
  rewrite Hd, Hp1. split; [done |]. split; [done |]. split.
  - split; [done |]. intros j v. simpl.
    intros [Hj | (_ & Hj)]%lookup_app_Some.
    + destruct (Hvals j v Hj) as [Hfj Hkj]. split; [| done]. by eapply lookup_weaken.
    + apply list_lookup_singleton_Some in Hj as [_ <-]. by split.
  - eapply grows_trans; [exact Hgrow |]. apply grows_values.
Qed.

Lemma get_same_pid s i p v :
  pid s = p -> values s !! i = Some v -> get mmap_key i p s = (s, Ok (_value v)).
Proof.
  intros Hp Hi. unfold get, bind, value_at. rewrite (check_same_pid s p Hp).
  by rewrite Hi.
Qed.

(** The identity check on a consistent state: it returns, in a consistent
    state whose cached identity is the probe's. *)
Lemma check_ok dir s p :
  consistent mmap_key dir s -> environ s !! CURRENT = Some dir -> healthy s ->
  exists s1,
    check_for_pid_change mmap_key p s = (s1, Ok tt) /\
    consistent mmap_key dir s1 /\ pid s1 = p /\
    environ s1 = environ s /\ disk s1 = disk s /\ failing s1 = failing s /\
    warned s1 = warned s /\ length (values s1) = length (values s).
Proof.
  intros Hcons Henv Hok. destruct (decide (pid s = p)) as [Hp | Hp].
  - exists s. by rewrite check_same_pid.
  - destruct (check_resync dir s p Henv Hok Hp)
      as (s1 & Hcheck & Hcons1 & (He & Hd & Hfail & Hw & Hp1 & _) & Hl & _).
    exists s1. unfold forked in *. simpl in *.
    pose proof (close_all_fields (set_pid p s)) as (He' & Hd' & Hfail' & Hw' & _ & _ & Hp').
    simpl in *. split_and!; try done; congruence.
Qed.

(** A call goes on from the state that the identity check returns. *)
Lemma perform_after_check dir r p s s1 :
  environ s !! CURRENT = Some dir ->
  check_for_pid_change mmap_key p s = (s1, Ok tt) ->
  environ s1 = environ s -> pid s1 = p ->
  perform mmap_key r p s = perform mmap_key r p s1.
Proof.
  intros Henv Hcheck He Hp.
  assert (environ s1 !! CURRENT = Some dir) as Henv1 by (by rewrite He).
  destruct r as [ps | i amount | i value | i]; simpl;
    unfold init, inc, set, get, bind;
    rewrite ?(legacy_compat_current s dir Henv), ?(legacy_compat_current s1 dir Henv1);
    by rewrite Hcheck, (check_same_pid s1 p Hp).
Qed.

(** [inc] and [set] when the identity is the probe's. *)
Lemma perform_write_same_pid r p s i g :
  pid s = p ->
  (exists amount, r = DoInc i amount /\ g = fun x => (x + amount)%float) \/
  (exists value, r = DoSet i value /\ g = fun _ => value) ->
  perform mmap_key r p s
  = match write_back g i s with
    | (s', Ok _) => (s', Ok NoneValue)
    | (s', Raise e) => (s', Raise e)
    end.
Proof.
  intros Hp [(amount & -> & ->) | (value & -> & ->)]; simpl.
  - rewrite inc_unfold. unfold bind. rewrite (check_same_pid s p Hp).
    by destruct (write_back _ i s) as [s' [[] | e]].
  - rewrite set_unfold. unfold bind. rewrite (check_same_pid s p Hp).
    by destruct (write_back _ i s) as [s' [[] | e]].
Qed.

Lemma write_back_consistent_any dir g i s :
  consistent mmap_key dir s -> healthy s ->
  consistent mmap_key dir (write_back g i s).1 /\
  environ (write_back g i s).1 = environ s /\
  failing (write_back g i s).1 = failing s /\
  warned (write_back g i s).1 = warned s /\
  pid (write_back g i s).1 = pid s.
Proof.
  intros Hcons Hok. destruct (values s !! i) as [v |] eqn:Hi.
  - rewrite (write_back_consistent dir g i s v Hcons Hok Hi). simpl.
    split_and!; try done. by apply consistent_stored, consistent_cached.
  - by rewrite (write_back_missing g i s Hi).
Qed.

(** A call on a consistent state whose identity is the probe's leaves a
    consistent state. *)
Lemma perform_same_pid_consistent dir r p s :
  consistent mmap_key dir s -> environ s !! CURRENT = Some dir -> healthy s ->
  pid s = p ->
  consistent mmap_key dir (perform mmap_key r p s).1 /\
  environ (perform mmap_key r p s).1 = environ s /\
  failing (perform mmap_key r p s).1 = failing s /\
  warned (perform mmap_key r p s).1 = warned s /\
  pid (perform mmap_key r p s).1 = p.
Proof.
  intros Hcons Henv Hok Hp.
  destruct r as [ps | i amount | i value | i].
  - destruct (init_same_pid dir s ps p Hcons Henv Hok Hp)
      as (s' & f & Hinit & _ & _ & Hcons' & (He & _ & Hfail & Hw & Hp' & _)).
    simpl. unfold bind. rewrite Hinit. simpl. split_and!; try done; congruence.
  - rewrite (perform_write_same_pid _ p s i (fun x => (x + amount)%float) Hp)
      by (left; eauto).
    pose proof (write_back_consistent_any dir (fun x => (x + amount)%float) i s Hcons Hok)
      as Hwb.
    destruct (write_back _ i s) as [s' [[] | e]]; simpl in *;
      rewrite <- Hp; exact Hwb.
  - rewrite (perform_write_same_pid _ p s i (fun _ => value) Hp) by (right; eauto).
    pose proof (write_back_consistent_any dir (fun _ => value) i s Hcons Hok) as Hwb.
    destruct (write_back _ i s) as [s' [[] | e]]; simpl in *;
      rewrite <- Hp; exact Hwb.
  - simpl. unfold get, bind, value_at. rewrite (check_same_pid s p Hp).
    by destruct (values s !! i).
Qed.


Lemma fresh_consistent dir getpid os :
  consistent mmap_key dir (MultiProcessValue getpid os).
Proof. split; intros ? ?; simpl; [by rewrite lookup_empty | done]. Qed.

(** [__init__] on a consistent state, whatever the identity was. *)
Lemma init_ok dir s ps p :
  consistent mmap_key dir s -> environ s !! CURRENT = Some dir -> healthy s ->
  exists s1 s' f,
    check_for_pid_change mmap_key p s = (s1, Ok tt) /\
    init mmap_key ps p s = (s', Ok (length (values s1))) /\
    values s' = values s1 ++ [loaded mmap_key dir s1 ps f] /\
    files s' !! file_prefix_of ps = Some f /\
    consistent mmap_key dir s' /\ grows s1 s' /\
    pid s1 = p /\ environ s1 = environ s /\ failing s1 = failing s.
Proof.
  intros Hcons Henv Hok.
  destruct (check_ok dir s p Hcons Henv Hok)
    as (s1 & Hcheck & Hcons1 & Hp1 & He1 & Hd1 & Hfail1 & Hw1 & Hl1).
  assert (environ s1 !! CURRENT = Some dir) as Henv1 by (by rewrite He1).
  assert (healthy s1) as Hok1 by (intros op; by rewrite Hfail1).
  destruct (init_same_pid dir s1 ps p Hcons1 Henv1 Hok1 Hp1)
    as (s' & f & Hinit & Hvals & Hf & Hcons' & Hgrow).
  exists s1, s', f. split_and!; try done.
  rewrite <- Hinit. unfold init, bind.
  rewrite (legacy_compat_current s dir Henv), (legacy_compat_current s1 dir Henv1).
  by rewrite Hcheck, (check_same_pid s1 p Hp1).
Qed.

(** [inc] and [set] on a consistent state whose identity is the probe's:
    the float goes to the instance and to the file of its store. *)
Lemma write_same_pid_ok dir r g i p s v :
  consistent mmap_key dir s -> healthy s -> pid s = p ->
  values s !! i = Some v ->
  (exists amount, r = DoInc i amount /\ g = fun x => (x + amount)%float) \/
  (exists value, r = DoSet i value /\ g = fun _ => value) ->
  exists s',
    perform mmap_key r p s = (s', Ok NoneValue) /\
    s' = stored (db_path dir (file_prefix_of (_params v)) p) (_key v) (g (_value v))
           (cached i (g (_value v)) s) /\
    consistent mmap_key dir s' /\ healthy s' /\ pid s' = p /\
    values s' !! i = Some (with_value (g (_value v)) v) /\
    heap s' !! _file v
      = Some (MmapedDict.Build (db_path dir (file_prefix_of (_params v)) p) false) /\
    disk s' !! (db_path dir (file_prefix_of (_params v)) p, _key v)
      = Some (g (_value v)).
Proof.
  intros Hcons Hok Hp Hi Hr.
  rewrite (perform_write_same_pid r p s i g Hp Hr).
  rewrite (write_back_consistent dir g i s v Hcons Hok Hi), Hp.
  eexists. split; [reflexivity |]. split; [reflexivity |].
  split; [by apply consistent_stored, consistent_cached |].
  split; [done |]. split; [done |]. simpl. split.
  - by rewrite list_lookup_alter_eq, Hi.
  - split; [| by rewrite lookup_insert_eq].
    destruct Hcons as [Hfiles Hvals]. destruct (Hvals i v Hi) as [Hf _].
    rewrite <- Hp. by apply Hfiles.
Qed.

(** The float that [inc] or [set] leaves in the instance. *)
Lemma write_sync dir s i v p r x :
  consistent mmap_key dir s -> healthy s -> pid s = p ->
  values s !! i = Some v ->
  (exists amount, r = DoInc i amount /\ x = (_value v + amount)%float) \/
  (exists value, r = DoSet i value /\ x = value) ->
  exists s',
    perform mmap_key r p s = (s', Ok NoneValue) /\
    consistent mmap_key dir s' /\ healthy s' /\ pid s' = p /\
    heap s' = heap s /\ environ s' = environ s /\
    values s' = alter (with_value x) i (values s) /\
    values s' !! i = Some (with_value x v) /\
    read_value (_file v) (_key v) s' = (s', Ok x) /\
    get mmap_key i p s' = (s', Ok x).
Proof.
  intros Hcons Hok Hp Hi Hr.
  destruct (write_same_pid_ok dir r
              (match r with DoInc _ a => fun y => (y + a)%float | _ => fun _ => x end)
              i p s v Hcons Hok Hp Hi)
    as (s' & Hperf & Hs' & Hcons' & Hok' & Hp' & Hv' & Hheap & Hdisk).
  { destruct Hr as [(a & -> & ->) | (value & -> & ->)]; [left | right]; eauto. }
  assert ((match r with DoInc _ a => fun y => (y + a)%float | _ => fun _ => x end)
            (_value v) = x) as Hx
    by (by destruct Hr as [(a & -> & ->) | (value & -> & ->)]).
  rewrite Hx in *. exists s'. split_and!; try done.
  - by rewrite Hs'.
  - by rewrite Hs'.
  - by rewrite Hs'.
  - erewrite read_value_open; [| exact Hheap | by apply Hok']. by rewrite Hdisk.
  - by rewrite (get_same_pid s' i p _ Hp' Hv').
Qed.

End WithKey.
End MmapedValue_primitives.

(** ** The shared backend: one identity at a time *)

Section MmapedValue_identity.
Import MultiProcessValue Shared.
Variable mmap_key : string -> string -> list string -> list string -> string.

(** C2. On a consistent state, with the directory configured and the file
    system answering, every call (construction, [inc], [set], [get]) first
    runs the identity check, which returns a state [s1], and goes on from
    [s1]. [s1] is consistent with the probe [p] as the one cached identity.
    When the probe is the cached identity, [s1] is the state as it was. When
    it differs: every store that [files] held is closed and no longer in
    [files]; the stores of [files] are opened after the change, on the file
    named with the new identity; and every registered instance is attached
    again, its float reloaded from that file. The state after the call is
    consistent too, and a constructor appends its instance to the registry
    that the check left. *)
Theorem identity_check_resynchronises (dir : string) (r : request) (p : Z) (s : state) :
  consistent mmap_key dir s -> environ s !! CURRENT = Some dir -> healthy s ->
  exists s1,
    check_for_pid_change mmap_key p s = (s1, Ok tt) /\
    perform mmap_key r p s = perform mmap_key r p s1 /\
    pid s1 = p /\ consistent mmap_key dir s1 /\
    (pid s = p -> s1 = s) /\
    (pid s <> p ->
       (forall q f, files s !! q = Some f ->
          heap s1 !! f = Some (MmapedDict.Build (db_path dir q (pid s)) true) /\
          forall q', files s1 !! q' <> Some f) /\
       (forall q f, files s1 !! q = Some f ->
          (length (heap s) <= f)%nat /\
          heap s1 !! f = Some (MmapedDict.Build (db_path dir q p) false)) /\
       length (values s1) = length (values s) /\
       forall j v, values s !! j = Some v ->
         exists f,
           values s1 !! j = Some (loaded mmap_key dir (set_pid p s) (_params v) f) /\
           files s1 !! file_prefix_of (_params v) = Some f) /\
    consistent mmap_key dir (perform mmap_key r p s).1 /\
    pid (perform mmap_key r p s).1 = p /\
    (forall ps, r = Construct ps ->
       exists f,
         values (perform mmap_key r p s).1 = values s1 ++ [loaded mmap_key dir s1 ps f]).
Proof.
  intros Hcons Henv Hok.
  destruct (check_ok mmap_key dir s p Hcons Henv Hok)
    as (s1 & Hcheck & Hcons1 & Hp1 & He1 & Hd1 & Hfail1 & Hw1 & Hl1).
  assert (environ s1 !! CURRENT = Some dir) as Henv1 by (by rewrite He1).
  assert (healthy s1) as Hok1 by (intros op; by rewrite Hfail1).
  pose proof (perform_after_check mmap_key dir r p s s1 Henv Hcheck He1 Hp1) as Hgo.
  exists s1. split; [done |]. split; [done |]. split; [done |]. split; [done |].
  split; [| split; [| rewrite Hgo; split; [| split]]].
  - intros Hp. rewrite (check_same_pid mmap_key s p Hp) in Hcheck. congruence.
  - intros Hne.
    destruct (check_resync mmap_key dir s p Henv Hok Hne)
      as (s1' & Hcheck' & _ & Hgrow & _ & Hre).
    assert (s1' = s1) as -> by congruence.
    destruct Hgrow as (_ & _ & _ & _ & _ & Hpre & _ & Hnew).
    assert (length (heap (forked p s)) = length (heap s)) as Hlen
      by apply (close_all_length (set_pid p s)).
    split; [| split; [| split; [done | exact Hre]]].
    + intros q f Hq. destruct Hcons as [Hfiles _]. pose proof (Hfiles q f Hq) as Hf.
      split.
      * eapply prefix_lookup_Some; [| exact Hpre]. unfold forked. simpl.
        rewrite (close_all_closes (set_pid p s) q f Hq). simpl. by rewrite Hf.
      * intros q' Hq'. destruct (Hnew q' f Hq') as [Hold | Hge].
        -- unfold forked in Hold. simpl in Hold. by rewrite lookup_empty in Hold.
        -- apply lookup_lt_Some in Hf. lia.
    + intros q f Hq. split.
      * destruct (Hnew q f Hq) as [Hold | Hge]; [| lia].
        unfold forked in Hold. simpl in Hold. by rewrite lookup_empty in Hold.
      * destruct Hcons1 as [Hfiles1 _]. rewrite <- Hp1. by apply Hfiles1.
  - by apply (perform_same_pid_consistent mmap_key dir r p s1).
  - by apply (perform_same_pid_consistent mmap_key dir r p s1).
  - intros ps ->.
    destruct (init_same_pid mmap_key dir s1 ps p Hcons1 Henv1 Hok1 Hp1)
      as (s' & f & Hinit & Hvals & _).
    exists f. simpl. unfold bind. by rewrite Hinit.
Qed.


Lemma append_cons (x : ascii) (a b : string) :
  String x a +:+ b = String x (a +:+ b).
Proof. reflexivity. Qed.

Lemma append_assoc (a b c : string) : (a +:+ b) +:+ c = a +:+ (b +:+ c).
Proof. induction a as [| x a IH]; [done |]. by rewrite !append_cons, IH. Qed.

Lemma append_length (a b : string) :
  String.length (a +:+ b) = (String.length a + String.length b)%nat.
Proof.
  induction a as [| x a IH]; [done |]. rewrite append_cons. simpl. by rewrite IH.
Qed.

Lemma append_inj_r (a b c : string) : a +:+ c = b +:+ c -> a = b.
Proof.
  revert b. induction a as [| x a IH]; intros [| y b] H.
  - done.
  - apply (f_equal String.length) in H. rewrite !append_length in H. simpl in H. lia.
  - apply (f_equal String.length) in H. rewrite !append_length in H. simpl in H. lia.
  - rewrite !append_cons in H. injection H as -> H. f_equal. by apply IH.
Qed.

Lemma os_path_join_suffix (a b : string) :
  exists pre, Py.os_path_join a b = pre +:+ b.
Proof.
  unfold Py.os_path_join. destruct (Py.startswith_sep b).
  - by exists "".
  - destruct (bool_decide (a = "") || Py.endswith_sep a).
    + by exists a.
    + exists (a +:+ "/"). by rewrite append_assoc.
Qed.

(** C4. The scenario: a counter [requests_total] without labels, the
    identity probe always 100, a key that the file does not have yet. The
    constructor opens a store on a path that ends in [counter_100.db]; three
    [inc(1.0)] and a [get()] return, the last with 3.0, and the store read
    under the instance's key gives 3.0. In general, when [inc] or [set]
    returns on a consistent state whose identity is the probe's, the file
    holds under the instance's key the float that the instance caches. *)
Theorem counter_scenario_and_store_sync :
  (forall (dir : string) (os : state) (name mode : string),
     let ps := Params (Some "counter") "requests_total" name [] [] mode in
     environ os !! CURRENT = Some dir -> healthy os ->
     disk os !! (db_path dir (Some "counter") 100, key_of mmap_key ps) = None ->
     exists s f,
       perform_all mmap_key
         [(Construct ps, 100); (DoInc 0 1, 100); (DoInc 0 1, 100);
          (DoInc 0 1, 100); (DoGet 0, 100)]
         (MultiProcessValue 100 os)
       = (s, [Ok (Index 0); Ok NoneValue; Ok NoneValue; Ok NoneValue;
              Ok (Float 3)]) /\
       (length (heap os) <= f)%nat /\
       heap s !! f
         = Some (MmapedDict.Build (Py.os_path_join dir "counter_100.db") false) /\
       (exists pre, Py.os_path_join dir "counter_100.db" = pre +:+ "counter_100.db") /\
       values s !! 0%nat = Some (Instance_ ps f (key_of mmap_key ps) 3) /\
       read_value f (key_of mmap_key ps) s = (s, Ok 3%float)) /\
  (forall (dir : string) (s : state) (i : nat) (v : MmapedValue) (p : Z)
          (r : request) (x : float),
     consistent mmap_key dir s -> healthy s -> pid s = p ->
     values s !! i = Some v ->
     (exists amount, r = DoInc i amount /\ x = (_value v + amount)%float) \/
     (exists value, r = DoSet i value /\ x = value) ->
     exists s' v',
       perform mmap_key r p s = (s', Ok NoneValue) /\
       values s' !! i = Some v' /\ _value v' = x /\
       read_value (_file v') (_key v') s' = (s', Ok (_value v')) /\
       get mmap_key i p s' = (s', Ok (_value v'))).
Proof.
  split.
  - intros dir os name mode ps Henv Hok Hunseen.
    destruct (init_same_pid mmap_key dir (MultiProcessValue 100 os) ps 100)
      as (s1 & f & Hinit & Hvals & Hf & Hcons1 & Hgrow); auto.
    { apply fresh_consistent. }
    pose proof Hgrow as (He & Hd & Hfail & Hw & Hp1 & Hpre & _ & Hnew).
    simpl in Hinit, Hvals, Hp1, Hd, Hfail.
    assert (healthy s1) as Hok1 by (intros op; by rewrite Hfail).
    assert (loaded mmap_key dir (MultiProcessValue 100 os) ps f
            = Instance_ ps f (key_of mmap_key ps) 0) as Hload.
    { unfold loaded.
      change (disk (MultiProcessValue 100 os)) with (disk os).
      change (pid (MultiProcessValue 100 os)) with 100.
      change (file_prefix_of ps) with (Some "counter").
      by rewrite Hunseen. }
    rewrite Hload in Hvals.
    destruct (write_sync mmap_key dir s1 0%nat (Instance_ ps f (key_of mmap_key ps) 0)
                100 (DoInc 0 1) 1%float Hcons1 Hok1 Hp1)
      as (s2 & Hperf2 & Hcons2 & Hok2 & Hp2 & Hh2 & _ & _ & Hv2 & _);
      [by rewrite Hvals | left; by exists 1%float |].
    destruct (write_sync mmap_key dir s2 0%nat _ 100 (DoInc 0 1) 2%float
                Hcons2 Hok2 Hp2 Hv2)
      as (s3 & Hperf3 & Hcons3 & Hok3 & Hp3 & Hh3 & _ & _ & Hv3 & _);
      [left; by exists 1%float |].
    destruct (write_sync mmap_key dir s3 0%nat _ 100 (DoInc 0 1) 3%float
                Hcons3 Hok3 Hp3 Hv3)
      as (s4 & Hperf4 & Hcons4 & Hok4 & Hp4 & Hh4 & _ & _ & Hv4 & Hread & Hget);
      [left; by exists 1%float |].
    exists s4, f. simpl in Hv4, Hread.
    assert (heap s1 !! f
            = Some (MmapedDict.Build (Py.os_path_join dir "counter_100.db") false))
      as Hheap.
    { destruct Hcons1 as [Hfiles1 _]. rewrite (Hfiles1 _ f Hf). by rewrite Hp1. }
    split_and!.
    + unfold perform_all. unfold perform at 1, bind. rewrite Hinit. unfold ret.
      rewrite Hperf2, Hperf3, Hperf4. simpl. unfold bind. by rewrite Hget.
    + destruct (Hnew _ f Hf) as [Hold | Hge]; [| done].
      simpl in Hold. by rewrite lookup_empty in Hold.
    + by rewrite Hh4, Hh3, Hh2.
    + apply os_path_join_suffix.
    + done.
    + done.
  - intros dir s i v p r x Hcons Hok Hp Hi Hr.
    destruct (write_sync mmap_key dir s i v p r x Hcons Hok Hp Hi Hr)
      as (s' & Hperf & _ & _ & _ & _ & _ & _ & Hv' & Hread & Hget).
    by exists s', (with_value x v).
Qed.


(** C1, as the code has it. Two instances constructed one after the other
    with the same arguments, the identity probe the same throughout: they
    hold the same key and the same store object, and were loaded with the
    same float. When [inc] or [set] on the first returns, the store read
    under the key gives the written float and so does [get()] on the first;
    [get()] on the second still returns the float the second was loaded
    with. *)
Theorem same_identity_shares_store_not_cache
    (dir : string) (s : state) (ps : params) (p : Z) :
  consistent mmap_key dir s -> environ s !! CURRENT = Some dir -> healthy s ->
  exists s1 i1 s2 i2 v1 v2,
    init mmap_key ps p s = (s1, Ok i1) /\
    init mmap_key ps p s1 = (s2, Ok i2) /\
    i1 <> i2 /\
    values s2 !! i1 = Some v1 /\ values s2 !! i2 = Some v2 /\
    _key v1 = _key v2 /\ _file v1 = _file v2 /\ _value v1 = _value v2 /\
    forall (r : request) (x : float),
      (exists amount, r = DoInc i1 amount /\ x = (_value v1 + amount)%float) \/
      (exists value, r = DoSet i1 value /\ x = value) ->
      exists s3,
        perform mmap_key r p s2 = (s3, Ok NoneValue) /\
        read_value (_file v2) (_key v2) s3 = (s3, Ok x) /\
        get mmap_key i1 p s3 = (s3, Ok x) /\
        get mmap_key i2 p s3 = (s3, Ok (_value v2)).
Proof.
  intros Hcons Henv Hok.
  destruct (init_ok mmap_key dir s ps p Hcons Henv Hok)
    as (sc & s1 & f1 & _ & Hinit1 & Hvals1 & Hf1 & Hcons1 & Hgrow1 & Hpc & Hec & Hfc).
  pose proof Hgrow1 as (He1 & Hd1 & Hfail1 & _ & Hp1 & _).
  assert (environ s1 !! CURRENT = Some dir) as Henv1 by (by rewrite He1, Hec).
  assert (healthy s1) as Hok1 by (intros op; by rewrite Hfail1, Hfc).
  assert (pid s1 = p) as Hpid1 by congruence.
  destruct (init_same_pid mmap_key dir s1 ps p Hcons1 Henv1 Hok1 Hpid1)
    as (s2 & f2 & Hinit2 & Hvals2 & Hf2 & Hcons2 & Hgrow2).
  pose proof Hgrow2 as (He2 & Hd2 & Hfail2 & _ & Hp2 & _ & Hsub & _).
  assert (f2 = f1) as ->.
  { pose proof (lookup_weaken _ _ _ _ Hf1 Hsub) as Hf1'. congruence. }
  assert (healthy s2) as Hok2 by (intros op; by rewrite Hfail2).
  assert (pid s2 = p) as Hpid2 by congruence.
  set (i1 := length (values sc)) in *.
  assert (length (values s1) = S i1) as Hlen1
    by (rewrite Hvals1, length_app; simpl; lia).
  assert (values s2 !! i1 = Some (loaded mmap_key dir sc ps f1)) as Hv1.
  { rewrite Hvals2, Hvals1. apply lookup_app_l_Some.
    by rewrite lookup_app_r, Nat.sub_diag. }
  assert (values s2 !! S i1 = Some (loaded mmap_key dir s1 ps f1)) as Hv2.
  { rewrite Hvals2, lookup_app_r by lia. by rewrite Hlen1, Nat.sub_diag. }
  exists s1, i1, s2, (S i1), (loaded mmap_key dir sc ps f1), (loaded mmap_key dir s1 ps f1).
  rewrite Hinit1, Hinit2, Hlen1.
  split_and!; try done; try lia.
  { unfold loaded. simpl. by rewrite Hd1, Hp1. }
  intros r x Hr.
  destruct (write_sync mmap_key dir s2 i1 _ p r x Hcons2 Hok2 Hpid2 Hv1 Hr)
    as (s3 & Hperf & _ & _ & Hp3 & _ & _ & Hvals3 & _ & Hread & Hget).
  exists s3. split_and!; try done.
  apply get_same_pid; [done |].
  rewrite Hvals3, list_lookup_alter_ne by lia. done.
Qed.

(** C9. [inc] and [set] whose identity check returned and whose store then
    refuses the write: the call raises the store's error, the instance
    already caches the new float, and the file holds what it held before.
    The two differ whenever the new float is not the one in the file. *)
Theorem failed_write_keeps_cached_update
    (p : Z) (s s1 : state) (i : nat) (v : MmapedValue) (d : MmapedDict.t)
    (amount value : float) :
  check_for_pid_change mmap_key p s = (s1, Ok tt) ->
  values s1 !! i = Some v ->
  heap s1 !! _file v = Some d -> MmapedDict.closed d = false ->
  failing s1 (Write (MmapedDict.filename d) (_key v)) = true ->
  (exists s',
     inc mmap_key i amount p s
       = (s', Raise (OSError (Write (MmapedDict.filename d) (_key v)))) /\
     values s' !! i = Some (with_value (_value v + amount)%float v) /\
     disk s' = disk s1 /\
     (disk s1 !! (MmapedDict.filename d, _key v) <> Some (_value v + amount)%float ->
      forall v', values s' !! i = Some v' ->
        disk s' !! (MmapedDict.filename d, _key v') <> Some (_value v'))) /\
  (exists s',
     set mmap_key i value p s
       = (s', Raise (OSError (Write (MmapedDict.filename d) (_key v)))) /\
     values s' !! i = Some (with_value value v) /\
     disk s' = disk s1 /\
     (disk s1 !! (MmapedDict.filename d, _key v) <> Some value ->
      forall v', values s' !! i = Some v' ->
        disk s' !! (MmapedDict.filename d, _key v') <> Some (_value v'))).
Proof.
  intros Hcheck Hi Hd Hopen Hbad.
  destruct d as [path c]. simpl in *. subst c.
  split.
  - rewrite inc_unfold. unfold bind. rewrite Hcheck.
    rewrite (write_back_fails _ i s1 v path Hi Hd Hbad).
    eexists. split; [reflexivity |]. simpl.
    rewrite list_lookup_alter_eq, Hi. simpl.
    split_and!; try done. by intros Hne v' [= <-].
  - rewrite set_unfold. unfold bind. rewrite Hcheck.
    rewrite (write_back_fails _ i s1 v path Hi Hd Hbad).
    eexists. split; [reflexivity |]. simpl.
    rewrite list_lookup_alter_eq, Hi. simpl.
    split_and!; try done. by intros Hne v' [= <-].
Qed.

(** What [write_back] can have changed, whether it returned or raised. *)
Lemma write_back_frame g i s v :
  values s !! i = Some v ->
  files (write_back g i s).1 = files s /\
  pid (write_back g i s).1 = pid s /\
  heap (write_back g i s).1 = heap s /\
  environ (write_back g i s).1 = environ s /\
  failing (write_back g i s).1 = failing s /\
  warned (write_back g i s).1 = warned s /\
  values (write_back g i s).1 = alter (with_value (g (_value v))) i (values s) /\
  (forall path key,
     (forall d, heap s !! _file v = Some d -> (path, key) <> (MmapedDict.filename d, _key v)) ->
     disk (write_back g i s).1 !! (path, key) = disk s !! (path, key)).
Proof.
  intros Hi. unfold write_back, bind, value_at, assign, modify, write_value.
  rewrite Hi. simpl.
  destruct (heap s !! _file v) as [d |] eqn:Hd; [| done].
  destruct (MmapedDict.closed d); [done |].
  destruct (failing s (Write (MmapedDict.filename d) (_key v))); [done |].
  simpl. split_and!; try done.
  intros path key Hne. rewrite lookup_insert_ne; [done |].
  intros Heq. by apply (Hne d).
Qed.

(** C10. [inc] and [set] on instance [i] when the probe is the cached
    identity, whether the call returns or raises: [files], the cached
    identity, the store objects, the environment and the registry's other
    instances are as before; in the registry only the float of instance [i]
    is replaced; in the files only the entry of the instance's file under
    the instance's key can differ. *)
Theorem write_changes_only_own_float_and_entry
    (i : nat) (p : Z) (s : state) (v : MmapedValue) (r : request) (x : float) :
  pid s = p -> values s !! i = Some v ->
  (exists amount, r = DoInc i amount /\ x = (_value v + amount)%float) \/
  (exists value, r = DoSet i value /\ x = value) ->
  files (perform mmap_key r p s).1 = files s /\
  pid (perform mmap_key r p s).1 = pid s /\
  heap (perform mmap_key r p s).1 = heap s /\
  environ (perform mmap_key r p s).1 = environ s /\
  length (values (perform mmap_key r p s).1) = length (values s) /\
  (forall j, j <> i -> values (perform mmap_key r p s).1 !! j = values s !! j) /\
  values (perform mmap_key r p s).1 !! i = Some (with_value x v) /\
  (forall path key,
     (forall d, heap s !! _file v = Some d -> (path, key) <> (MmapedDict.filename d, _key v)) ->
     disk (perform mmap_key r p s).1 !! (path, key) = disk s !! (path, key)).
Proof.
  intros Hp Hi Hr.
  pose (g := match r with DoInc _ a => fun y => (y + a)%float | _ => fun _ : float => x end).
  assert (g (_value v) = x) as Hx
    by (by destruct Hr as [(a & -> & ->) | (value & -> & ->)]).
  rewrite (perform_write_same_pid mmap_key r p s i g Hp)
    by (destruct Hr as [(a & -> & ->) | (value & -> & ->)]; [left | right]; eauto).
  pose proof (write_back_frame g i s v Hi) as (Hf & Hpid & Hh & He & _ & _ & Hv & Hd).
  rewrite Hx in Hv.
  assert ((match write_back g i s with
           | (s', Ok _) => (s', Ok NoneValue)
           | (s', Raise e) => (s', Raise e)
           end).1 = (write_back g i s).1) as ->
    by (by destruct (write_back g i s) as [s' [[] | e]]).
  split_and!; try done.
  - by rewrite Hv, length_alter.
  - intros j Hj. by rewrite Hv, list_lookup_alter_ne.
  - by rewrite Hv, list_lookup_alter_eq, Hi.
Qed.

End MmapedValue_identity.

(** ** Exemplars and the choice of the backend *)

Section Selector.
Import MultiProcessValue.

(** C7. In the shared backend [set_exemplar] returns without an error and
    leaves the state as it is, and [get_exemplar] returns [None], also after
    a [set_exemplar]. *)
Theorem MmapedValue_exemplars_unsupported
    (Exemplar : Type) (i : nat) (exemplar : Exemplar) (s : state) :
  set_exemplar Exemplar i exemplar s = (s, Ok tt) /\
  get_exemplar Exemplar i s = (s, Ok None) /\
  get_exemplar Exemplar i (set_exemplar Exemplar i exemplar s).1 = (s, Ok None).
Proof. done. Qed.

(** C6. [get_value_class] returns the class that [MultiProcessValue()]
    builds, with a fresh closure, when [os.environ] has the legacy name or
    the current one, and [MutexValue] when it has neither. *)
Theorem get_value_class_selects (os : state) (getpid : Z) :
  (is_Some (environ os !! LEGACY) \/ is_Some (environ os !! CURRENT) ->
   get_value_class os getpid = MmapedValueClass (MultiProcessValue getpid os) /\
   files (MultiProcessValue getpid os) = ∅ /\
   values (MultiProcessValue getpid os) = [] /\
   pid (MultiProcessValue getpid os) = getpid) /\
  (environ os !! LEGACY = None -> environ os !! CURRENT = None ->
   get_value_class os getpid = MutexValueClass).
Proof.
  unfold get_value_class. split.
  - intros [H | H]; split; try done.
    + by rewrite (bool_decide_eq_true_2 _ H).
    + by rewrite (bool_decide_eq_true_2 _ H), orb_true_r.
  - intros -> ->. by rewrite !bool_decide_eq_false_2 by (by intros [? ?]).
Qed.

End Selector.

(** ** The shared backend: programs of calls *)

Section MmapedValue_programs.
Import MultiProcessValue Shared.
Variable mmap_key : string -> string -> list string -> list string -> string.

Lemma perform_all_cons r p calls s :
  perform_all mmap_key ((r, p) :: calls) s
  = ((perform_all mmap_key calls (perform mmap_key r p s).1).1,
     (perform mmap_key r p s).2 :: (perform_all mmap_key calls (perform mmap_key r p s).1).2).
Proof.
  simpl. destruct (perform mmap_key r p s) as [s' a]. simpl.
  by destruct (perform_all mmap_key calls s') as [s'' answers].
Qed.

(** A call made with the directory configured, on a consistent state, with
    the file system answering, leaves such a state. *)
Lemma perform_consistent dir r p s :
  consistent mmap_key dir s -> environ s !! CURRENT = Some dir -> healthy s ->
  consistent mmap_key dir (perform mmap_key r p s).1 /\
  environ (perform mmap_key r p s).1 !! CURRENT = Some dir /\
  healthy (perform mmap_key r p s).1 /\
  pid (perform mmap_key r p s).1 = p.
Proof.
  intros Hcons Henv Hok.
  destruct (check_ok mmap_key dir s p Hcons Henv Hok)
    as (s1 & Hcheck & Hcons1 & Hp1 & He1 & Hd1 & Hfail1 & Hw1 & Hl1).
  assert (environ s1 !! CURRENT = Some dir) as Henv1 by (by rewrite He1).
  assert (healthy s1) as Hok1 by (intros op; by rewrite Hfail1).
  rewrite (perform_after_check mmap_key dir r p s s1 Henv Hcheck He1 Hp1).
  destruct (perform_same_pid_consistent mmap_key dir r p s1 Hcons1 Henv1 Hok1 Hp1)
    as (Hc & He & Hf & _ & Hp).
  split_and!; try done.
  - by rewrite He.
  - intros op. by rewrite Hf.
Qed.

Lemma perform_all_consistent dir calls : forall s,
  consistent mmap_key dir s -> environ s !! CURRENT = Some dir -> healthy s ->
  consistent mmap_key dir (perform_all mmap_key calls s).1.
Proof.
  induction calls as [| [r p] calls IH]; intros s Hcons Henv Hok; [done |].
  rewrite perform_all_cons. simpl.
  destruct (perform_consistent dir r p s Hcons Henv Hok) as (Hc & He & Hh & _).
  by apply IH.
Qed.

(** *** Statements that do not look at a part of the state *)


Lemma commutes_ret h {A : Type} (a : A) : commutes h (ret a).
Proof. done. Qed.

Lemma commutes_raise h {A : Type} (e : exn) : commutes h (raise (A := A) e).
Proof. done. Qed.

Lemma commutes_bind h {A B : Type} (m : M A) (k : A -> M B) :
  commutes h m -> (forall a, commutes h (k a)) -> commutes h (bind m k).
Proof.
  intros Hm Hk s. unfold bind. rewrite Hm.
  destruct (m s) as [s' [a | e]]; simpl; [apply Hk | done].
Qed.

Lemma commutes_gets h {A : Type} (f : state -> A) :
  (forall s, f (h s) = f s) -> commutes h (gets f).
Proof. intros Hf s. unfold gets. simpl. by rewrite Hf. Qed.

Lemma commutes_modify h (g : state -> state) :
  (forall s, g (h s) = h (g s)) -> commutes h (modify g).
Proof. intros Hg s. unfold modify. simpl. by rewrite Hg. Qed.

Lemma commutes_for_each h {A : Type} (body : A -> M unit) (l : list A) :
  (forall x, commutes h (body x)) -> commutes h (for_each l body).
Proof.
  intros Hb. induction l as [| x l IH]; [done |].
  simpl. apply commutes_bind; [apply Hb | by intros _].
Qed.

(** The statements of the module do not look at the warnings given. *)
Lemma close_list_set_warned w (l : list nat) s :
  foldr close (set_warned w s) l = set_warned w (foldr close s l).
Proof. induction l as [| f l IH]; [done |]. simpl. by rewrite IH. Qed.

Lemma commutes_value_at w i : commutes (set_warned w) (value_at i).
Proof. intros s. unfold value_at. simpl. by destruct (values s !! i). Qed.

Lemma commutes_read_value w f key : commutes (set_warned w) (read_value f key).
Proof.
  intros s. unfold read_value. simpl.
  destruct (heap s !! f) as [d |]; [| done].
  destruct (MmapedDict.closed d); [done |]. by destruct (failing s _).
Qed.

Lemma commutes_write_value w f key x : commutes (set_warned w) (write_value f key x).
Proof.
  intros s. unfold write_value. simpl.
  destruct (heap s !! f) as [d |]; [| done].
  destruct (MmapedDict.closed d); [done |]. by destruct (failing s _).
Qed.

Lemma commutes_attach w q : commutes (set_warned w) (attach q).
Proof.
  unfold attach. apply commutes_bind; [by apply commutes_gets |].
  intros [f |]; [apply commutes_ret |].
  apply commutes_bind; [by apply commutes_gets |]. intros d.
  apply commutes_bind; [by apply commutes_gets |]. intros p.
  destruct d as [d |]; [| apply commutes_raise].
  apply commutes_bind.
  { intros s. unfold open. simpl. by destruct (failing s _). }
  intros f. apply commutes_bind; [by apply commutes_modify |].
  intros _. apply commutes_ret.
Qed.

Lemma commutes_reset w i : commutes (set_warned w) (reset mmap_key i).
Proof.
  unfold reset. apply commutes_bind; [apply commutes_value_at |]. intros v.
  apply commutes_bind; [apply commutes_attach |]. intros f.
  apply commutes_bind; [by apply commutes_modify |]. intros _.
  apply commutes_bind; [by apply commutes_modify |]. intros _.
  apply commutes_bind; [apply commutes_read_value |].
  intros x. by apply commutes_modify.
Qed.

Lemma commutes_check w p :
  commutes (set_warned w) (check_for_pid_change mmap_key p).
Proof.
  unfold check_for_pid_change.
  apply commutes_bind; [by apply commutes_gets |]. intros p0.
  case_bool_decide; [| apply commutes_ret].
  apply commutes_bind; [by apply commutes_modify |]. intros _.
  apply commutes_bind.
  { apply commutes_modify. intros s. unfold close_all. simpl.
    apply close_list_set_warned. }
  intros _. apply commutes_bind; [by apply commutes_modify |]. intros _.
  apply commutes_bind; [by apply commutes_gets |]. intros n.
  apply commutes_for_each. intros i. apply commutes_reset.
Qed.


Lemma init_unfold ps p s :
  init mmap_key ps p s
  = match legacy_compat s with
    | (s', Ok _) => init_rest mmap_key ps p s'
    | (s', Raise e) => (s', Raise e)
    end.
Proof. reflexivity. Qed.

Lemma commutes_init_rest w ps p : commutes (set_warned w) (init_rest mmap_key ps p).
Proof.
  unfold init_rest. apply commutes_bind; [apply commutes_check |]. intros _.
  apply commutes_bind; [apply commutes_attach |]. intros f.
  apply commutes_bind; [apply commutes_read_value |]. intros x.
  apply commutes_bind; [by apply commutes_gets |]. intros i.
  apply commutes_bind; [by apply commutes_modify |]. intros _.
  apply commutes_ret.
Qed.

Lemma commutes_write_back w g i : commutes (set_warned w) (write_back g i).
Proof.
  unfold write_back. apply commutes_bind; [apply commutes_value_at |]. intros v.
  apply commutes_bind; [by apply commutes_modify |]. intros _.
  apply commutes_write_value.
Qed.

Lemma commutes_inc w i amount p : commutes (set_warned w) (inc mmap_key i amount p).
Proof.
  rewrite inc_unfold. apply commutes_bind; [apply commutes_check |].
  intros _. apply commutes_write_back.
Qed.

Lemma commutes_set w i value p : commutes (set_warned w) (set mmap_key i value p).
Proof.
  rewrite set_unfold. apply commutes_bind; [apply commutes_check |].
  intros _. apply commutes_write_back.
Qed.

Lemma commutes_get w i p : commutes (set_warned w) (get mmap_key i p).
Proof.
  unfold get. apply commutes_bind; [apply commutes_check |]. intros _.
  apply commutes_bind; [apply commutes_value_at |]. intros v. apply commutes_ret.
Qed.

(** Once the current name is set, a call does not look at the warnings. *)
Lemma perform_set_warned dir w r p s :
  environ s !! CURRENT = Some dir ->
  perform mmap_key r p (set_warned w s)
  = (set_warned w (perform mmap_key r p s).1, (perform mmap_key r p s).2).
Proof.
  intros Henv. destruct r as [ps | i amount | i value | i]; simpl.
  - unfold bind. rewrite !init_unfold.
    rewrite (legacy_compat_current s dir Henv).
    rewrite (legacy_compat_current (set_warned w s) dir) by done.
    rewrite commutes_init_rest.
    by destruct (init_rest mmap_key ps p s) as [s' [i | e]].
  - apply (commutes_bind (set_warned w)); [apply commutes_inc |].
    intros _. apply commutes_ret.
  - apply (commutes_bind (set_warned w)); [apply commutes_set |].
    intros _. apply commutes_ret.
  - apply (commutes_bind (set_warned w)); [apply commutes_get |].
    intros x. apply commutes_ret.
Qed.

(** *** Statements that leave a part of the state as it is *)


Lemma keeps_ret {B : Type} (f : state -> B) {A : Type} (a : A) : keeps f (ret a).
Proof. done. Qed.

Lemma keeps_raise {B : Type} (f : state -> B) {A : Type} (e : exn) :
  keeps f (raise (A := A) e).
Proof. done. Qed.

Lemma keeps_bind {B : Type} (f : state -> B) {A C : Type} (m : M A) (k : A -> M C) :
  keeps f m -> (forall a, keeps f (k a)) -> keeps f (bind m k).
Proof.
  intros Hm Hk s. unfold bind. specialize (Hm s).
  destruct (m s) as [s' [a | e]]; simpl in *; [| done].
  by rewrite Hk.
Qed.

Lemma keeps_gets {B : Type} (f : state -> B) {A : Type} (g : state -> A) :
  keeps f (gets g).
Proof. done. Qed.

Lemma keeps_modify {B : Type} (f : state -> B) (g : state -> state) :
  (forall s, f (g s) = f s) -> keeps f (modify g).
Proof. intros Hg s. apply Hg. Qed.

Lemma keeps_for_each {B : Type} (f : state -> B) {A : Type}
    (body : A -> M unit) (l : list A) :
  (forall x, keeps f (body x)) -> keeps f (for_each l body).
Proof.
  intros Hb. induction l as [| x l IH]; [done |].
  simpl. apply keeps_bind; [apply Hb | by intros _].
Qed.


Lemma keeps_value_at i : keeps outside (value_at i).
Proof. intros s. unfold value_at. by destruct (values s !! i). Qed.

Lemma keeps_read_value f key : keeps outside (read_value f key).
Proof.
  intros s. unfold read_value.
  destruct (heap s !! f) as [d |]; [| done].
  destruct (MmapedDict.closed d); [done |]. by destruct (failing s _).
Qed.

Lemma keeps_write_value f key x : keeps outside (write_value f key x).
Proof.
  intros s. unfold write_value.
  destruct (heap s !! f) as [d |]; [| done].
  destruct (MmapedDict.closed d); [done |]. by destruct (failing s _).
Qed.

Lemma keeps_attach q : keeps outside (attach q).
Proof.
  unfold attach. apply keeps_bind; [apply keeps_gets |].
  intros [f |]; [apply keeps_ret |].
  apply keeps_bind; [apply keeps_gets |]. intros d.
  apply keeps_bind; [apply keeps_gets |]. intros p.
  destruct d as [d |]; [| apply keeps_raise].
  apply keeps_bind.
  { intros s. unfold open. by destruct (failing s _). }
  intros f. apply keeps_bind; [by apply keeps_modify |].
  intros _. apply keeps_ret.
Qed.

Lemma keeps_check p : keeps outside (check_for_pid_change mmap_key p).
Proof.
  unfold check_for_pid_change.
  apply keeps_bind; [apply keeps_gets |]. intros p0.
  case_bool_decide; [| apply keeps_ret].
  apply keeps_bind; [by apply keeps_modify |]. intros _.
  apply keeps_bind.
  { apply keeps_modify. intros s. unfold outside.
    by destruct (close_all_fields s) as (-> & _ & _ & -> & _). }
  intros _. apply keeps_bind; [by apply keeps_modify |]. intros _.
  apply keeps_bind; [apply keeps_gets |]. intros n.
  apply keeps_for_each. intros i. unfold reset.
  apply keeps_bind; [apply keeps_value_at |]. intros v.
  apply keeps_bind; [apply keeps_attach |]. intros f.
  apply keeps_bind; [by apply keeps_modify |]. intros _.
  apply keeps_bind; [by apply keeps_modify |]. intros _.
  apply keeps_bind; [apply keeps_read_value |].
  intros x. by apply keeps_modify.
Qed.

Lemma keeps_init_rest ps p : keeps outside (init_rest mmap_key ps p).
Proof.
  unfold init_rest. apply keeps_bind; [apply keeps_check |]. intros _.
  apply keeps_bind; [apply keeps_attach |]. intros f.
  apply keeps_bind; [apply keeps_read_value |]. intros x.
  apply keeps_bind; [apply keeps_gets |]. intros i.
  apply keeps_bind; [by apply keeps_modify |]. intros _.
  apply keeps_ret.
Qed.

Lemma keeps_write_back g i : keeps outside (write_back g i).
Proof.
  unfold write_back. apply keeps_bind; [apply keeps_value_at |]. intros v.
  apply keeps_bind; [by apply keeps_modify |]. intros _.
  apply keeps_write_value.
Qed.

(** Once the current name is set, a call leaves the environment and the
    warnings as they are, whether it returns or raises. *)
Lemma perform_outside dir r p s :
  environ s !! CURRENT = Some dir ->
  outside (perform mmap_key r p s).1 = outside s.
Proof.
  intros Henv. destruct r as [ps | i amount | i value | i]; simpl.
  - unfold bind. rewrite init_unfold, (legacy_compat_current s dir Henv).
    pose proof (keeps_init_rest ps p s) as H.
    by destruct (init_rest mmap_key ps p s) as [s' [i | e]].
  - apply (keeps_bind outside); [| intros _; apply keeps_ret].
    rewrite inc_unfold. apply keeps_bind; [apply keeps_check |].
    intros _. apply keeps_write_back.
  - apply (keeps_bind outside); [| intros _; apply keeps_ret].
    rewrite set_unfold. apply keeps_bind; [apply keeps_check |].
    intros _. apply keeps_write_back.
  - apply (keeps_bind outside); [| intros x; apply keeps_ret].
    unfold get. apply keeps_bind; [apply keeps_check |]. intros _.
    apply keeps_bind; [apply keeps_value_at |]. intros v. apply keeps_ret.
Qed.

Lemma perform_all_outside dir calls : forall s,
  environ s !! CURRENT = Some dir ->
  outside (perform_all mmap_key calls s).1 = outside s.
Proof.
  induction calls as [| [r p] calls IH]; intros s Henv; [done |].
  rewrite perform_all_cons. simpl.
  pose proof (perform_outside dir r p s Henv) as Hout.
  rewrite IH; [done |]. injection Hout as -> _. done.
Qed.

Lemma perform_all_set_warned dir w calls : forall s,
  environ s !! CURRENT = Some dir ->
  perform_all mmap_key calls (set_warned w s)
  = (set_warned w (perform_all mmap_key calls s).1, (perform_all mmap_key calls s).2).
Proof.
  induction calls as [| [r p] calls IH]; intros s Henv; [done |].
  rewrite !perform_all_cons. rewrite (perform_set_warned dir w r p s Henv). simpl.
  pose proof (perform_outside dir r p s Henv) as Hout. injection Hout as He _.
  rewrite IH by (by rewrite He). done.
Qed.


(** *** Before the first instance *)

Lemma close_list_set_environ e (l : list nat) s :
  foldr close (set_environ e s) l = set_environ e (foldr close s l).
Proof. induction l as [| f l IH]; [done |]. simpl. by rewrite IH. Qed.

Lemma forked_set_environ e p s :
  forked p (set_environ e s) = set_environ e (forked p s).
Proof.
  unfold forked, close_all.
  change (set_pid p (set_environ e s)) with (set_environ e (set_pid p s)).
  change (files (set_environ e (set_pid p s))) with (files (set_pid p s)).
  by rewrite close_list_set_environ.
Qed.

Lemma forked_fields p s :
  environ (forked p s) = environ s /\ warned (forked p s) = warned s /\
  values (forked p s) = values s /\ pid (forked p s) = p.
Proof.
  unfold forked. simpl.
  by destruct (close_all_fields (set_pid p s)) as (-> & _ & _ & -> & _ & -> & ->).
Qed.


Lemma check_no_values p s :
  values s = [] -> check_for_pid_change mmap_key p s = (checked p s, Ok tt).
Proof.
  intros Hv. rewrite check_unfold. unfold checked. case_bool_decide; [| done].
  destruct (forked_fields p s) as (_ & _ & -> & _). by rewrite Hv.
Qed.

Lemma checked_fields p s :
  environ (checked p s) = environ s /\ warned (checked p s) = warned s /\
  values (checked p s) = values s.
Proof.
  unfold checked. case_bool_decide; [| done].
  by destruct (forked_fields p s) as (-> & -> & -> & _).
Qed.

Lemma checked_set_environ e p s :
  checked p (set_environ e s) = set_environ e (checked p s).
Proof.
  unfold checked. simpl. case_bool_decide; [| done]. apply forked_set_environ.
Qed.


(** A call on an instance when the registry is empty. *)
Lemma perform_no_values r p s :
  values s = [] -> is_construct r = false ->
  perform mmap_key r p s = (checked p s, Raise BadReference).
Proof.
  intros Hv Hr.
  assert (forall i, values (checked p s) !! i = None) as Hnone.
  { intros i. destruct (checked_fields p s) as (_ & _ & ->). by rewrite Hv. }
  destruct r as [ps | i amount | i value | i]; [done | | |]; simpl.
  - rewrite inc_unfold. unfold bind. rewrite (check_no_values p s Hv).
    by rewrite write_back_missing.
  - rewrite set_unfold. unfold bind. rewrite (check_no_values p s Hv).
    by rewrite write_back_missing.
  - unfold get, bind, value_at. rewrite (check_no_values p s Hv).
    by rewrite Hnone.
Qed.


(** A program started with only the legacy name set, against the same
    program started with the current name set as well. *)
Lemma legacy_run dir calls : forall s,
  values s = [] -> environ s !! LEGACY = Some dir -> environ s !! CURRENT = None ->
  (perform_all mmap_key calls s).2
  = (perform_all mmap_key calls (set_environ (<[CURRENT := dir]> (environ s)) s)).2 /\
  if constructs calls then
    (perform_all mmap_key calls s).1
    = set_warned (warned s ++ [DEPRECATION])
        (perform_all mmap_key calls (set_environ (<[CURRENT := dir]> (environ s)) s)).1
  else
    values (perform_all mmap_key calls s).1 = [] /\
    environ (perform_all mmap_key calls s).1 = environ s /\
    warned (perform_all mmap_key calls s).1 = warned s.
Proof.
  induction calls as [| [r p] calls IH]; intros s Hv Hold Hnew; [done |].
  rewrite !perform_all_cons. simpl.
  set (e := <[CURRENT := dir]> (environ s)).
  destruct (is_construct r) eqn:Hr.
  - destruct r as [ps | | |]; try done. simpl.
    assert (init mmap_key ps p s
            = (set_warned (warned s ++ [DEPRECATION])
                 (init mmap_key ps p (set_environ e s)).1,
               (init mmap_key ps p (set_environ e s)).2)) as Hinit.
    { rewrite !init_unfold.
      rewrite (legacy_compat_current (set_environ e s) dir)
        by (simpl; unfold e; by rewrite lookup_insert_eq).
      unfold legacy_compat at 1. rewrite Hold, Hnew.
      apply (commutes_init_rest (warned s ++ [DEPRECATION]) ps p (set_environ e s)). }
    unfold bind. rewrite Hinit.
    assert (environ (init mmap_key ps p (set_environ e s)).1 !! CURRENT = Some dir)
      as Henv'.
    { pose proof (perform_outside dir (Construct ps) p (set_environ e s)) as Hout.
      simpl in Hout. unfold bind in Hout.
      destruct (init mmap_key ps p (set_environ e s)) as [s' [i | x]]; simpl in *;
        injection (Hout ltac:(unfold e; by rewrite lookup_insert_eq)) as -> _;
        unfold e; by rewrite lookup_insert_eq. }
    destruct (init mmap_key ps p (set_environ e s)) as [s' [i | x]]; simpl in *;
      rewrite (perform_all_set_warned dir _ calls s' Henv'); done.
  - rewrite (perform_no_values r p s Hv Hr).
    rewrite (perform_no_values r p (set_environ e s)) by done.
    rewrite checked_set_environ. simpl.
    destruct (checked_fields p s) as (He & Hw & Hvs).
    destruct (IH (checked p s)) as [Hans Hst]; try congruence.
    rewrite He, Hw in *. fold e in Hans, Hst. rewrite Hans. split; [done |].
    exact Hst.
Qed.


(** C8. A process that has the directory only under the legacy name gets the
    shared backend, and any program of calls on it answers as it does when
    the current name is set as well. From the first constructor on, the
    current name holds the legacy value, the two states differ only in the
    warnings, and exactly one deprecation warning has been added; until
    then there is no instance, and no warning is given. *)
Theorem legacy_name_is_honoured
    (dir : string) (os : state) (getpid : Z) (calls : list (request * Z)) :
  environ os !! LEGACY = Some dir -> environ os !! CURRENT = None ->
  get_value_class os getpid = MmapedValueClass (MultiProcessValue getpid os) /\
  (perform_all mmap_key calls (MultiProcessValue getpid os)).2
  = (perform_all mmap_key calls
       (MultiProcessValue getpid
          (set_environ (<[CURRENT := dir]> (environ os)) os))).2 /\
  (constructs calls = true ->
     (perform_all mmap_key calls (MultiProcessValue getpid os)).1
     = set_warned (warned os ++ [DEPRECATION])
         (perform_all mmap_key calls
            (MultiProcessValue getpid
               (set_environ (<[CURRENT := dir]> (environ os)) os))).1 /\
     environ (perform_all mmap_key calls (MultiProcessValue getpid os)).1 !! CURRENT
     = Some dir /\
     warned (perform_all mmap_key calls (MultiProcessValue getpid os)).1
     = warned os ++ [DEPRECATION]) /\
  (constructs calls = false ->
     values (perform_all mmap_key calls (MultiProcessValue getpid os)).1 = [] /\
     warned (perform_all mmap_key calls (MultiProcessValue getpid os)).1 = warned os) /\
  (values (perform_all mmap_key calls (MultiProcessValue getpid os)).1 <> [] ->
     environ (perform_all mmap_key calls (MultiProcessValue getpid os)).1 !! CURRENT
     = Some dir).
Proof.
  intros Hold Hnew.
  destruct (legacy_run dir calls (MultiProcessValue getpid os)) as [Hans Hst];
    try done.
  change (set_environ (<[CURRENT := dir]> (environ (MultiProcessValue getpid os)))
            (MultiProcessValue getpid os))
    with (MultiProcessValue getpid (set_environ (<[CURRENT := dir]> (environ os)) os))
    in Hans, Hst.
  set (s' := MultiProcessValue getpid (set_environ (<[CURRENT := dir]> (environ os)) os))
    in *.
  assert (environ s' !! CURRENT = Some dir) as Henv'
    by (by unfold s'; simpl; rewrite lookup_insert_eq).
  pose proof (perform_all_outside dir calls s' Henv') as Hout.
  injection Hout as He _.
  assert (constructs calls = true ->
    (perform_all mmap_key calls (MultiProcessValue getpid os)).1
    = set_warned (warned os ++ [DEPRECATION]) (perform_all mmap_key calls s').1 /\
    environ (perform_all mmap_key calls (MultiProcessValue getpid os)).1 !! CURRENT
    = Some dir /\
    warned (perform_all mmap_key calls (MultiProcessValue getpid os)).1
    = warned os ++ [DEPRECATION]) as Hyes.
  { intros Hc. rewrite Hc in Hst. simpl in Hst. rewrite Hst. simpl.
    by rewrite He. }
  split.
  { unfold get_value_class. rewrite (bool_decide_eq_true_2 _ (mk_is_Some _ _ Hold)).
    done. }
  split; [done |]. split; [done |].
  destruct (constructs calls) eqn:Hc.
  - split; [done |]. intros _. by apply Hyes.
  - destruct Hst as (Hv & _ & Hw). split; [done |]. by rewrite Hv.
Qed.

Lemma os_path_join_inj (dir a b : string) :
  Py.startswith_sep a = false -> Py.startswith_sep b = false ->
  Py.os_path_join dir a = Py.os_path_join dir b -> a = b.
Proof.
  unfold Py.os_path_join. intros -> ->.
  destruct (bool_decide (dir = "") || Py.endswith_sep dir).
  - apply String.app_inj.
  - intros H. apply String.app_inj in H. by apply String.app_inj in H.
Qed.

(** The states of a program started on a fresh closure, with the directory
    configured under either name and the file system answering. *)
Lemma program_consistent dir os getpid calls :
  healthy os ->
  environ os !! CURRENT = Some dir \/
  (environ os !! CURRENT = None /\ environ os !! LEGACY = Some dir) ->
  exists s',
    consistent mmap_key dir s' /\
    (values (perform_all mmap_key calls (MultiProcessValue getpid os)).1 <> [] ->
     values (perform_all mmap_key calls (MultiProcessValue getpid os)).1 = values s' /\
     heap (perform_all mmap_key calls (MultiProcessValue getpid os)).1 = heap s' /\
     pid (perform_all mmap_key calls (MultiProcessValue getpid os)).1 = pid s').
Proof.
  intros Hok [Hnew | [Hnew Hold]].
  - eexists. split; [| done].
    apply perform_all_consistent; [apply fresh_consistent | done | done].
  - exists (perform_all mmap_key calls
              (set_environ (<[CURRENT := dir]> (environ (MultiProcessValue getpid os)))
                 (MultiProcessValue getpid os))).1.
    split.
    + apply perform_all_consistent; [by split | | done].
      simpl. by rewrite lookup_insert_eq.
    + destruct (legacy_run dir calls (MultiProcessValue getpid os)) as [_ Hst];
        try done.
      destruct (constructs calls).
      * rewrite Hst. done.
      * destruct Hst as (-> & _). done.
Qed.


End MmapedValue_programs.

(** ** The theorems at concrete inputs *)

Section Instances.
Import MultiProcessValue Shared Examples.

Lemma float_0_ne_1 : 0%float <> 1%float.
Proof.
  intros H. apply (f_equal (fun x => PrimFloat.ltb x 1%float)) in H.
  vm_compute in H. discriminate.
Qed.

Lemma one_counter_consistent : consistent example_key "/tmp/prom" one_counter.
Proof.
  apply perform_all_consistent; [apply fresh_consistent | done | done].
Qed.

Lemma one_counter_healthy : healthy one_counter.
Proof. intros op. vm_compute. reflexivity. Qed.

(** [inc] on the counter after a fork to identity 101: the old store is
    closed, the instance is attached to [counter_101.db] and counts from
    what that file has. *)
Lemma identity_check_resynchronises_witness :
  consistent example_key "/tmp/prom" one_counter /\
  environ one_counter !! CURRENT = Some "/tmp/prom" /\
  healthy one_counter /\
  exists s1,
    check_for_pid_change example_key 101 one_counter = (s1, Ok tt) /\
    pid s1 = 101 /\ consistent example_key "/tmp/prom" s1 /\
    heap s1 !! 0%nat = Some (MmapedDict.Build "/tmp/prom/counter_100.db" true) /\
    heap s1 !! 1%nat = Some (MmapedDict.Build "/tmp/prom/counter_101.db" false) /\
    files s1 !! Some "counter" = Some 1%nat /\
    perform example_key (DoInc 0 1) 101 one_counter
    = perform example_key (DoInc 0 1) 101 s1 /\
    consistent example_key "/tmp/prom" (perform example_key (DoInc 0 1) 101 one_counter).1.
Proof.
  split; [apply one_counter_consistent |]. split; [vm_compute; reflexivity |].
  split; [apply one_counter_healthy |].
  destruct (identity_check_resynchronises example_key "/tmp/prom" (DoInc 0 1) 101
              one_counter one_counter_consistent eq_refl one_counter_healthy)
    as (s1 & Hcheck & Hgo & Hp & Hcons & _ & _ & Hcons' & _).
  exists s1. split; [exact Hcheck |]. split; [exact Hp |]. split; [exact Hcons |].
  assert (s1 = (check_for_pid_change example_key 101 one_counter).1) as Hs1
    by (by rewrite Hcheck).
  split; [rewrite Hs1; vm_compute; reflexivity |].
  split; [rewrite Hs1; vm_compute; reflexivity |].
  split; [rewrite Hs1; vm_compute; reflexivity |].
  split; [exact Hgo | exact Hcons'].
Defined.


(** C1 as the spec states it fails: two counters constructed with the same
    arguments under identity 100 hold the same key and the same store; after
    [inc(1.0)] on the first returns, the store and [get()] on the first give
    1.0, and [get()] on the second returns 0.0. *)
Lemma write_not_seen_by_other_instance :
  (perform_all example_key
     [(Construct counter_params, 100); (Construct counter_params, 100);
      (DoInc 0 1, 100); (DoGet 0, 100); (DoGet 1, 100)]
     (MultiProcessValue 100 example_os)).2
  = [Ok (Index 0); Ok (Index 1); Ok NoneValue; Ok (Float 1); Ok (Float 0)] /\
  (_key <$> values (perform_all example_key
     [(Construct counter_params, 100); (Construct counter_params, 100);
      (DoInc 0 1, 100)] (MultiProcessValue 100 example_os)).1)
  = [key_of example_key counter_params; key_of example_key counter_params] /\
  (_file <$> values (perform_all example_key
     [(Construct counter_params, 100); (Construct counter_params, 100);
      (DoInc 0 1, 100)] (MultiProcessValue 100 example_os)).1)
  = [0%nat; 0%nat] /\
  (read_value 0 (key_of example_key counter_params)
     (perform_all example_key
        [(Construct counter_params, 100); (Construct counter_params, 100);
         (DoInc 0 1, 100)] (MultiProcessValue 100 example_os)).1).2
  = Ok 1%float /\
  Ok (Float 0) <> Ok (Float 1).
Proof.
  split; [vm_compute; reflexivity |]. split; [vm_compute; reflexivity |].
  split; [vm_compute; reflexivity |]. split; [vm_compute; reflexivity |].
  intros H. apply float_0_ne_1. congruence.
Qed.

Lemma same_identity_shares_store_not_cache_witness :
  consistent example_key "/tmp/prom" (MultiProcessValue 100 example_os) /\
  environ (MultiProcessValue 100 example_os) !! CURRENT = Some "/tmp/prom" /\
  healthy (MultiProcessValue 100 example_os) /\
  exists s1 i1 s2 i2 v1 v2,
    init example_key counter_params 100 (MultiProcessValue 100 example_os) = (s1, Ok i1) /\
    init example_key counter_params 100 s1 = (s2, Ok i2) /\
    i1 <> i2 /\
    values s2 !! i1 = Some v1 /\ values s2 !! i2 = Some v2 /\
    _key v1 = _key v2 /\ _file v1 = _file v2 /\ _value v1 = _value v2 /\
    exists s3,
      perform example_key (DoInc i1 1) 100 s2 = (s3, Ok NoneValue) /\
      read_value (_file v2) (_key v2) s3 = (s3, Ok (_value v1 + 1)%float) /\
      get example_key i1 100 s3 = (s3, Ok (_value v1 + 1)%float) /\
      get example_key i2 100 s3 = (s3, Ok (_value v2)).
Proof.
  split; [apply fresh_consistent |]. split; [reflexivity |]. split; [done |].
  destruct (same_identity_shares_store_not_cache example_key "/tmp/prom"
              (MultiProcessValue 100 example_os) counter_params 100
              (fresh_consistent example_key _ _ _) eq_refl (fun _ => eq_refl))
    as (s1 & i1 & s2 & i2 & v1 & v2 & H1 & H2 & Hne & Hv1 & Hv2 & Hk & Hf & Hx & Hw).
  exists s1, i1, s2, i2, v1, v2. repeat (split; [assumption |]).
  apply (Hw (DoInc i1 1) (_value v1 + 1)%float). left. by exists 1%float.
Defined.

(** The scenario with [example_key] and the directory [/tmp/prom]. *)
Lemma counter_scenario_witness :
  exists s f,
    perform_all example_key
      [(Construct counter_params, 100); (DoInc 0 1, 100); (DoInc 0 1, 100);
       (DoInc 0 1, 100); (DoGet 0, 100)]
      (MultiProcessValue 100 example_os)
    = (s, [Ok (Index 0); Ok NoneValue; Ok NoneValue; Ok NoneValue; Ok (Float 3)]) /\
    heap s !! f = Some (MmapedDict.Build "/tmp/prom/counter_100.db" false) /\
    read_value f (key_of example_key counter_params) s = (s, Ok 3%float).
Proof.
  destruct (proj1 (counter_scenario_and_store_sync example_key)
              "/tmp/prom" example_os "requests_total" "" eq_refl (fun _ => eq_refl)
              eq_refl)
    as (s & f & Hrun & _ & Hheap & _ & _ & Hread).
  exists s, f. split; [exact Hrun |]. split; [exact Hheap | exact Hread].
Defined.


Lemma failed_write_keeps_cached_update_witness :
  check_for_pid_change example_key 100 readonly_counter = (readonly_counter, Ok tt) /\
  values readonly_counter !! 0%nat
  = Some (Instance_ counter_params 0 (key_of example_key counter_params) 0) /\
  heap readonly_counter !! 0%nat
  = Some (MmapedDict.Build "/tmp/prom/counter_100.db" false) /\
  failing readonly_counter
    (Write "/tmp/prom/counter_100.db" (key_of example_key counter_params)) = true /\
  exists s',
    inc example_key 0 1 100 readonly_counter
    = (s', Raise (OSError (Write "/tmp/prom/counter_100.db"
                             (key_of example_key counter_params)))) /\
    values s' !! 0%nat
    = Some (Instance_ counter_params 0 (key_of example_key counter_params) 1) /\
    disk s' = disk readonly_counter.
Proof.
  assert (check_for_pid_change example_key 100 readonly_counter
          = (readonly_counter, Ok tt)) as Hcheck by (vm_compute; reflexivity).
  split; [exact Hcheck |]. split; [vm_compute; reflexivity |].
  split; [vm_compute; reflexivity |]. split; [vm_compute; reflexivity |].
  destruct (failed_write_keeps_cached_update example_key 100 readonly_counter
              readonly_counter 0
              (Instance_ counter_params 0 (key_of example_key counter_params) 0)
              (MmapedDict.Build "/tmp/prom/counter_100.db" false) 1 5
              Hcheck eq_refl eq_refl eq_refl eq_refl)
    as [(s' & Hinc & Hv & Hd & _) _].
  exists s'. split; [exact Hinc |]. split; [exact Hv | exact Hd].
Defined.

Lemma write_changes_only_own_float_and_entry_witness :
  pid one_counter = 100 /\
  values one_counter !! 0%nat
  = Some (Instance_ counter_params 0 (key_of example_key counter_params) 0) /\
  files (perform example_key (DoInc 0 1) 100 one_counter).1 = files one_counter /\
  heap (perform example_key (DoInc 0 1) 100 one_counter).1 = heap one_counter /\
  values (perform example_key (DoInc 0 1) 100 one_counter).1 !! 0%nat
  = Some (Instance_ counter_params 0 (key_of example_key counter_params) 1).
Proof.
  split; [reflexivity |]. split; [vm_compute; reflexivity |].
  destruct (write_changes_only_own_float_and_entry example_key 0 100 one_counter
              (Instance_ counter_params 0 (key_of example_key counter_params) 0)
              (DoInc 0 1) 1%float eq_refl eq_refl
              (or_introl (ex_intro _ 1%float (conj eq_refl eq_refl))))
    as (Hf & _ & Hh & _ & _ & _ & Hv & _).
  split; [exact Hf |]. split; [exact Hh | exact Hv].
Defined.

(** A [get()] on no instance, two constructors (the second after a fork) and
    an [inc], with the directory under the legacy name. *)
Lemma legacy_name_is_honoured_witness :
  environ legacy_os !! LEGACY = Some "/tmp/prom" /\
  environ legacy_os !! CURRENT = None /\
  (perform_all example_key
     [(DoGet 0, 100); (Construct counter_params, 100);
      (Construct counter_params, 101); (DoInc 0 2, 101)]
     (MultiProcessValue 100 legacy_os)).2
  = [Raise BadReference; Ok (Index 0); Ok (Index 1); Ok NoneValue] /\
  warned (perform_all example_key
     [(DoGet 0, 100); (Construct counter_params, 100);
      (Construct counter_params, 101); (DoInc 0 2, 101)]
     (MultiProcessValue 100 legacy_os)).1 = [DEPRECATION] /\
  environ (perform_all example_key
     [(DoGet 0, 100); (Construct counter_params, 100);
      (Construct counter_params, 101); (DoInc 0 2, 101)]
     (MultiProcessValue 100 legacy_os)).1 !! CURRENT = Some "/tmp/prom".
Proof.
  split; [reflexivity |]. split; [reflexivity |].
  destruct (legacy_name_is_honoured example_key "/tmp/prom" legacy_os 100
              [(DoGet 0, 100); (Construct counter_params, 100);
               (Construct counter_params, 101); (DoInc 0 2, 101)]
              eq_refl eq_refl)
    as (_ & Hans & Hyes & _).
  destruct (Hyes eq_refl) as (_ & Henv & Hw).
  split; [| split; [exact Hw | exact Henv]].
  rewrite Hans. vm_compute. reflexivity.
Defined.


End Instances.

(** ** [MutexValue]: mutual exclusion and the values returned *)

Section MutexValue_returns.
Import MutexValue Replay.
Context {Exemplar : Type}.
Implicit Types (s : shared Exemplar) (th : thread Exemplar) (c : call Exemplar).
Implicit Types (self : t Exemplar) (progs : list (list (call Exemplar))).

Lemma held_step self progs s i :
  linearized self progs s -> held s -> held (step _ i s).
Proof.
  intros (_ & Hlock & _) Hheld. unfold step.
  destruct (threads _ s !! i) as [th |] eqn:Hi; [| done].
  assert (i < length (threads _ s))%nat as Hlt by (by eapply lookup_lt_Some).
  assert (forall p td rs o,
    at_pc _ th <> Idle -> p <> Idle ->
    held (goto _ i (Thread _ p td rs) s o (lock _ s))) as Hkeep.
  { intros p td rs o Hat Hp j Hj. simpl in *.
    assert (lock _ s = Some i) as Hl by eauto.
    assert (j = i) as -> by congruence.
    eexists. split; [by apply list_lookup_insert_eq |]. done. }
  destruct th as [p td rs]. simpl in *.
  destruct p as [| c | amount tmp | r].
  - destruct td as [| c rest]; [done |].
    destruct (lock _ s) as [holder |] eqn:Hl; [done |].
    intros j [= <-]. simpl. eexists. split; [by apply list_lookup_insert_eq |]. done.
  - destruct c; by apply Hkeep.
  - by apply Hkeep.
  - intros j Hj. done.
Qed.

Lemma held_run self progs sched s :
  linearized self progs s -> held s -> held (run _ sched s).
Proof.
  revert s. induction sched as [| i sched IH]; intros s Hlin Hheld; [done |].
  simpl. apply IH; [by apply linearized_step | by eapply held_step].
Qed.

Lemma held_spawn self progs : held (spawn _ self progs).
Proof. intros i Hi. done. Qed.

(** X1. In every state that threads calling the methods of one [MutexValue]
    can reach, the lock is held by thread [i] exactly when thread [i] is
    inside a call; so at most one thread is inside a call, and the lock is
    free once every call has returned. *)
Theorem MutexValue_mutual_exclusion self progs (sched : list nat) :
  (forall i th,
     threads _ (run _ sched (spawn _ self progs)) !! i = Some th ->
     (at_pc _ th <> Idle <-> lock _ (run _ sched (spawn _ self progs)) = Some i)) /\
  (forall i j thi thj,
     threads _ (run _ sched (spawn _ self progs)) !! i = Some thi ->
     threads _ (run _ sched (spawn _ self progs)) !! j = Some thj ->
     at_pc _ thi <> Idle -> at_pc _ thj <> Idle -> i = j) /\
  (quiescent _ (run _ sched (spawn _ self progs)) = true ->
   lock _ (run _ sched (spawn _ self progs)) = None).
Proof.
  pose proof (linearized_run self progs sched _ (linearized_spawn self progs))
    as (_ & Hlock & _).
  pose proof (held_run self progs sched _ (linearized_spawn self progs)
                (held_spawn self progs)) as Hheld.
  split; [| split].
  - intros i th Hi. split; [by apply Hlock |].
    intros Hl. destruct (Hheld i Hl) as (th' & Hi' & Hat). congruence.
  - intros i j thi thj Hi Hj Hati Hatj.
    pose proof (Hlock i thi Hi Hati). pose proof (Hlock j thj Hj Hatj). congruence.
  - intros Hq. destruct (lock _ _) as [i |] eqn:Hl; [| done].
    destruct (Hheld i Hl) as (th & Hi & Hat).
    unfold quiescent in Hq. rewrite forallb_forall in Hq.
    assert (finished _ th = true) as Hfin.
    { apply Hq. apply list_elem_of_In. by eapply list_elem_of_lookup_2. }
    unfold finished in Hfin. by destruct (at_pc _ th).
Qed.


Lemma of_thread_app {A : Type} (i : nat) (l k : list (nat * A)) :
  of_thread i (l ++ k) = of_thread i l ++ of_thread i k.
Proof. apply omap_app. Qed.

Lemma of_thread_own {A : Type} (i : nat) (x : A) : of_thread i [(i, x)] = [x].
Proof. unfold of_thread. simpl. by rewrite decide_True. Qed.

Lemma of_thread_other {A : Type} (i j : nat) (x : A) :
  j <> i -> of_thread i [(j, x)] = [].
Proof. intros Hne. unfold of_thread. simpl. by rewrite decide_False. Qed.

Lemma replay_snoc (l : list (nat * call Exemplar)) j c self :
  replay (l ++ [(j, c)]) self
  = replay l self ++ [(j, ret_of c (exec _ (l.*2) self))].
Proof.
  revert self. induction l as [| [i d] l IH]; intros self; [done |].
  simpl. by rewrite IH.
Qed.

Lemma run_threads_length sched s :
  length (threads _ (run _ sched s)) = length (threads _ s).
Proof.
  revert s. induction sched as [| i sched IH]; intros s; [done |].
  simpl. rewrite IH. unfold step.
  destruct (threads _ s !! i) as [[p td rs] |]; [| done]. simpl.
  destruct p as [| c | amount tmp | r]; simpl.
  - destruct td; [done |]. destruct (lock _ s); [done |]. simpl. apply length_insert.
  - destruct c; simpl; apply length_insert.
  - apply length_insert.
  - apply length_insert.
Qed.

Lemma tracked_spawn self progs : tracked self progs (spawn _ self progs).
Proof.
  exists []. split; [done |]. split; [done |].
  intros i th. simpl. rewrite list_lookup_fmap.
  destruct (progs !! i); intros; simplify_eq/=. done.
Qed.

(** A step of thread [i] at which no call takes effect. *)
Lemma tracked_silent self progs s i th th' l :
  tracked self progs s ->
  threads _ s !! i = Some th ->
  pending _ th' = pending _ th ->
  returned _ th' ++ leaving th' = returned _ th ++ leaving th ->
  tracked self progs (goto _ i th' s (obj _ s) l).
Proof.
  intros (done' & Hobj & Htags & Hth) Hi Hpend Hret.
  exists done'. split; [done |]. split; [done |].
  intros j thj. simpl.
  intros [(-> & <- & _) | (Hne & Hj)]%list_lookup_insert_Some; [| by apply Hth].
  rewrite Hpend, Hret. by apply Hth.
Qed.

(** A step at which the pending call [c] of thread [i] takes effect. *)
Lemma tracked_commit self progs s i th th' c l :
  tracked self progs s ->
  threads _ s !! i = Some th ->
  pending _ th = c :: pending _ th' ->
  leaving th = [] -> returned _ th' = returned _ th ->
  leaving th' = [ret_of c (obj _ s)] ->
  tracked self progs (goto _ i th' s (apply _ c (obj _ s)) l).
Proof.
  intros (done' & Hobj & Htags & Hth) Hi Hpend Hleft Hsame Hret.
  destruct (Hth i th Hi) as [Hprog Hgiven].
  exists (done' ++ [(i, c)]). split; [| split].
  - rewrite fmap_app. simpl. by rewrite exec_snoc, Hobj.
  - apply Forall_app. split; [done |]. apply Forall_singleton. simpl.
    by eapply lookup_lt_Some.
  - intros j thj. simpl.
    intros [(-> & <- & _) | (Hne & Hj)]%list_lookup_insert_Some.
    + rewrite replay_snoc, !of_thread_app, !of_thread_own, <- Hobj.
      rewrite Hprog, Hpend, Hgiven, Hleft, Hsame, Hret, app_nil_r.
      by rewrite <- app_assoc.
    + rewrite replay_snoc, !of_thread_app, !of_thread_other, !app_nil_r by done.
      by apply Hth.
Qed.

Lemma tracked_step self progs s i :
  linearized self progs s -> tracked self progs s -> tracked self progs (step _ i s).
Proof.
  intros (_ & _ & Hload) Htr. unfold step.
  destruct (threads _ s !! i) as [th |] eqn:Hi; [| done].
  destruct th as [p td rs]. simpl.
  destruct p as [| c | amount tmp | r].
  - destruct td as [| c rest]; [done |].
    destruct (lock _ s) as [holder |]; [done |].
    by apply (tracked_silent self progs s i _ _ _ Htr Hi).
  - destruct c as [amount | value | e | |].
    + by apply (tracked_silent self progs s i _ _ _ Htr Hi).
    + by apply (tracked_commit self progs s i _ _ (Set_ value) _ Htr Hi).
    + by apply (tracked_commit self progs s i _ _ (SetExemplar _ e) _ Htr Hi).
    + by apply (tracked_commit self progs s i _ _ Get _ Htr Hi).
    + by apply (tracked_commit self progs s i _ _ GetExemplar _ Htr Hi).
  - rewrite (Hload i _ amount tmp Hi eq_refl).
    by apply (tracked_commit self progs s i _ _ (Inc amount) _ Htr Hi).
  - apply (tracked_silent self progs s i _ _ _ Htr Hi); [done |].
    unfold leaving. simpl. by rewrite app_nil_r.
Qed.

Lemma tracked_run self progs sched s :
  linearized self progs s -> tracked self progs s ->
  tracked self progs (run _ sched s).
Proof.
  revert s. induction sched as [| i sched IH]; intros s Hlin Htr; [done |].
  simpl. apply IH; [by apply linearized_step | by apply tracked_step].
Qed.

(** X2. Threads calling any of the methods of one [MutexValue], under any
    schedule: once every call has returned, there is an order of all the
    calls, each thread's in its own order, such that the instance is what
    the calls make of it run one after the other in that order, and every
    call was given back what it returns in that run. *)
Theorem MutexValue_calls_linearizable self progs (sched : list nat) :
  quiescent _ (run _ sched (spawn _ self progs)) = true ->
  exists order : list (nat * call Exemplar),
    (forall i p, progs !! i = Some p -> of_thread i order = p) /\
    Forall (fun x => (x.1 < length progs)%nat) order /\
    obj _ (run _ sched (spawn _ self progs)) = exec _ (order.*2) self /\
    (forall i th,
       threads _ (run _ sched (spawn _ self progs)) !! i = Some th ->
       returned _ th = of_thread i (replay order self)).
Proof.
  intros Hq.
  destruct (tracked_run self progs sched _ (linearized_spawn self progs)
              (tracked_spawn self progs)) as (order & Hobj & Htags & Hth).
  assert (forall i th,
    threads _ (run _ sched (spawn _ self progs)) !! i = Some th ->
    pending _ th = [] /\ leaving th = []) as Hrest.
  { intros i th Hi. unfold quiescent in Hq. rewrite forallb_forall in Hq.
    assert (finished _ th = true) as Hfin.
    { apply Hq. apply list_elem_of_In. by eapply list_elem_of_lookup_2. }
    unfold finished in Hfin. unfold pending, leaving.
    destruct (at_pc _ th); try done. by destruct (todo _ th). }
  exists order. split; [| split; [done | split; [done |]]].
  - intros i p Hp.
    assert (is_Some (threads _ (run _ sched (spawn _ self progs)) !! i)) as [th Hi].
    { apply lookup_lt_is_Some. rewrite run_threads_length. simpl.
      rewrite length_fmap. by eapply lookup_lt_Some. }
    destruct (Hth i th Hi) as [Hprog _]. destruct (Hrest i th Hi) as [Hpend _].
    rewrite Hpend, app_nil_r in Hprog. congruence.
  - intros i th Hi. destruct (Hth i th Hi) as [_ Hgiven].
    destruct (Hrest i th Hi) as [_ Hleft].
    by rewrite Hgiven, Hleft, app_nil_r.
Qed.


Lemma run_app (a b : list nat) s : run _ (a ++ b) s = run _ b (run _ a s).
Proof. unfold run. apply fold_left_app. Qed.

Lemma run_cons (i : nat) (sched : list nat) s :
  run _ (i :: sched) s = run _ sched (step _ i s).
Proof. reflexivity. Qed.

Ltac solo_step :=
  rewrite run_cons; unfold step;
  cbn [threads obj lock at_pc todo returned];
  rewrite list_lookup_insert_eq by (rewrite ?length_insert; lia);
  cbn [threads obj lock at_pc todo returned];
  unfold goto; cbn [threads obj lock at_pc todo returned];
  rewrite ?list_insert_insert_eq.

(** The thread that is inside a call can finish it on its own. *)
Lemma finish_call (i : nat) (l : list (thread Exemplar)) (o : t Exemplar) th :
  (i < length l)%nat -> at_pc _ th <> Idle ->
  exists sched o' r,
    run _ sched (Shared _ o (Some i) (<[i := th]> l))
    = Shared _ o' None (<[i := Thread _ Idle (todo _ th) (returned _ th ++ [r])]> l).
Proof.
  intros Hlt Hat. destruct th as [p td rs]. simpl in *.
  destruct p as [| c | amount tmp | r]; [done | | |].
  - destruct c as [amount | value | e | |].
    + eexists [i; i; i], _, _. solo_step. solo_step. solo_step. reflexivity.
    + eexists [i; i], _, _. solo_step. solo_step. reflexivity.
    + eexists [i; i], _, _. solo_step. solo_step. reflexivity.
    + eexists [i; i], _, _. solo_step. solo_step. reflexivity.
    + eexists [i; i], _, _. solo_step. solo_step. reflexivity.
  - eexists [i; i], _, _. solo_step. solo_step. reflexivity.
  - eexists [i], _, _. solo_step. reflexivity.
Qed.

Lemma focus s i th :
  threads _ s !! i = Some th ->
  s = Shared _ (obj _ s) (lock _ s) (<[i := th]> (threads _ s)).
Proof. intros Hi. destruct s as [o lk l]. simpl in *. by rewrite list_insert_id. Qed.

(** From a state the threads can reach, the thread inside a call, if there
    is one, can leave it. *)
Lemma to_rest self progs s :
  linearized self progs s -> held s -> exists sched, resting (run _ sched s).
Proof.
  intros (_ & Hlock & _) Hheld.
  assert (forall j thj, threads _ s !! j = Some thj ->
            at_pc _ thj = Idle \/ lock _ s = Some j) as Hcases.
  { intros j thj Hj. destruct (at_pc _ thj) eqn:Hatj; [by left | | |];
      right; (eapply Hlock; [exact Hj | by rewrite Hatj]). }
  destruct (lock _ s) as [i |] eqn:Hl.
  - destruct (Hheld i Hl) as (th & Hi & Hat).
    destruct (finish_call i (threads _ s) (obj _ s) th) as (sched & o' & r & Hrun);
      [by eapply lookup_lt_Some | done |].
    exists sched. rewrite (focus s i th Hi), Hl, Hrun. split; [done |].
    intros j thj. simpl.
    intros [(-> & <- & _) | (Hne & Hj)]%list_lookup_insert_Some; [done |].
    destruct (Hcases j thj Hj) as [Hidle | Hj']; [done | congruence].
  - exists []. split; [done |]. intros j thj Hj.
    destruct (Hcases j thj Hj) as [Hidle | Hj']; [done | congruence].
Qed.

Lemma resting_insert s i td rs o :
  resting s ->
  resting (Shared _ o None (<[i := Thread _ Idle td rs]> (threads _ s))).
Proof.
  intros [_ Hidle]. split; [done |]. intros j thj. simpl.
  intros [(-> & <- & _) | (Hne & Hj)]%list_lookup_insert_Some; [done |].
  by eapply Hidle.
Qed.

(** With no thread inside a call, a thread can run all its calls. *)
Lemma finish_thread i td : forall s rs,
  resting s -> threads _ s !! i = Some (Thread _ Idle td rs) ->
  exists sched o rs',
    run _ sched s = Shared _ o None (<[i := Thread _ Idle [] rs']> (threads _ s)).
Proof.
  induction td as [| c td IH]; intros s rs [Hl Hidle] Hi.
  - exists [], (obj _ s), rs. simpl. rewrite <- Hl. by apply focus.
  - assert (i < length (threads _ s))%nat as Hlt by (by eapply lookup_lt_Some).
    destruct (finish_call i (threads _ s) (obj _ s) (Thread _ (Entered _ c) td rs))
      as (sched & o' & r & Hrun); [done | done |].
    destruct (IH (Shared _ o' None (<[i := Thread _ Idle td (rs ++ [r])]> (threads _ s)))
                 (rs ++ [r]))
      as (sched' & o & rs' & Hrun').
    { by apply resting_insert. }
    { simpl. by apply list_lookup_insert_eq. }
    exists (i :: sched ++ sched'), o, rs'.
    change (run _ (i :: sched ++ sched') s) with (run _ (sched ++ sched') (step _ i s)).
    rewrite run_app.
    assert (step _ i s
            = Shared _ (obj _ s) (Some i)
                (<[i := Thread _ (Entered _ c) td rs]> (threads _ s))) as ->.
    { unfold step. rewrite Hi. simpl. by rewrite Hl. }
    simpl in Hrun. rewrite Hrun, Hrun'. simpl. by rewrite list_insert_insert_eq.
Qed.

(** With no thread inside a call, the threads can run all their calls, one
    thread after the other. *)
Lemma finish_upto (k : nat) : forall s,
  resting s -> (k <= length (threads _ s))%nat ->
  exists sched,
    resting (run _ sched s) /\
    length (threads _ (run _ sched s)) = length (threads _ s) /\
    forall j th, (j < k)%nat -> threads _ (run _ sched s) !! j = Some th ->
                 finished _ th = true.
Proof.
  induction k as [| k IH]; intros s Hrest Hk.
  - exists []. split; [done |]. split; [done |]. intros j th Hj. lia.
  - destruct (IH s Hrest) as (sched & Hrest' & Hlen & Hfin); [lia |].
    set (s' := run _ sched s) in *.
    assert (is_Some (threads _ s' !! k)) as [[p td rs] Hth]
      by (apply lookup_lt_is_Some; lia).
    assert (p = Idle) as -> by (destruct Hrest' as [_ Hidle]; apply (Hidle k _ Hth)).
    destruct (finish_thread k td s' rs Hrest' Hth) as (sched' & o & rs' & Hrun).
    exists (sched ++ sched'). rewrite run_app. fold s'. rewrite Hrun.
    split; [by apply resting_insert |]. simpl.
    split; [by rewrite length_insert |].
    intros j th Hj.
    intros [(-> & <- & _) | (Hne & Hjth)]%list_lookup_insert_Some; [done |].
    apply (Hfin j th); [lia | done].
Qed.

(** X3. Threads calling the methods of one [MutexValue] never block each
    other for good: from every state they can reach, some continuation of
    the schedule lets every call return. *)
Theorem MutexValue_no_deadlock self progs (sched : list nat) :
  exists more : list nat,
    quiescent _ (run _ (sched ++ more) (spawn _ self progs)) = true.
Proof.
  pose proof (linearized_run self progs sched _ (linearized_spawn self progs)) as Hlin.
  pose proof (held_run self progs sched _ (linearized_spawn self progs)
                (held_spawn self progs)) as Hheld.
  destruct (to_rest self progs _ Hlin Hheld) as (a & Hrest).
  destruct (finish_upto (length (threads _ (run _ a (run _ sched (spawn _ self progs)))))
              _ Hrest) as (b & _ & Hlen & Hfin); [done |].
  exists (a ++ b). rewrite !run_app. unfold quiescent. apply forallb_forall.
  intros th Hin. apply list_elem_of_In, list_elem_of_lookup in Hin as [j Hj].
  apply (Hfin j th); [| done]. rewrite <- Hlen. by eapply lookup_lt_Some.
Qed.

(** C3. Threads that call [inc] on a freshly constructed [MutexValue], each
    with its own sequence of amounts and under any schedule. The calls
    return: whatever has been scheduled so far, some continuation of the
    schedule lets every call return. And once all the calls have returned,
    the instance is what the [inc] calls make of it run one after the other
    in some order that keeps each thread's own, and [get()] returns the sum
    of the amounts added to 0.0 in that order; with one thread the order is
    the thread's sequence. *)
Theorem MutexValue_get_after_incs
    (typ : option string) (metric_name name : string)
    (labelnames labelvalues : list string)
    (amounts : list (list float)) (sched : list nat) :
  (exists more : list nat,
     quiescent _ (run _ (sched ++ more)
       (spawn _ (init Exemplar typ metric_name name labelnames labelvalues)
          ((fmap Inc : list float -> list (call Exemplar)) <$> amounts))) = true) /\
  (quiescent _ (run _ sched
     (spawn _ (init Exemplar typ metric_name name labelnames labelvalues)
        ((fmap Inc : list float -> list (call Exemplar)) <$> amounts))) = true ->
   exists order : list float,
     merges amounts order /\
     obj _ (run _ sched
       (spawn _ (init Exemplar typ metric_name name labelnames labelvalues)
          ((fmap Inc : list float -> list (call Exemplar)) <$> amounts)))
     = fold_left (fun o a => inc _ a o) order
         (init Exemplar typ metric_name name labelnames labelvalues) /\
     get _ (obj _ (run _ sched
       (spawn _ (init Exemplar typ metric_name name labelnames labelvalues)
          ((fmap Inc : list float -> list (call Exemplar)) <$> amounts))))
     = fold_left PrimFloat.add order 0%float /\
     (forall l, amounts = [l] -> order = l)).
Proof.
  set (self := init Exemplar typ metric_name name labelnames labelvalues).
  set (progs := (fmap Inc : list float -> list (call Exemplar)) <$> amounts).
  split.
  - pose proof (linearized_run self progs sched _ (linearized_spawn self progs)) as Hlin.
    pose proof (held_run self progs sched _ (linearized_spawn self progs)
                  (held_spawn self progs)) as Hheld.
    destruct (to_rest self progs _ Hlin Hheld) as (a & Hrest).
    destruct (finish_upto
                (length (threads _ (run _ a (run _ sched (spawn _ self progs)))))
                _ Hrest) as (b & _ & Hlen & Hfin); [done |].
    exists (a ++ b). rewrite !run_app. unfold quiescent. apply forallb_forall.
    intros th Hin. apply list_elem_of_In, list_elem_of_lookup in Hin as [j Hj].
    apply (Hfin j th); [| done]. rewrite <- Hlen. by eapply lookup_lt_Some.
  - intros Hq. destruct (run_linearizable _ _ _ Hq) as (calls & Hm & Hobj).
    destruct (merges_fmap_inv Inc amounts calls Hm) as (order & -> & Hm').
    exists order. rewrite Hobj, exec_incs. split; [done |]. split; [done |].
    split; [by rewrite get_incs |].
    intros l ->. by apply merges_single.
Qed.

End MutexValue_returns.

(** ** The shared backend: what the statements leave alone *)

Section Frame.
Import MultiProcessValue Shared Common.
Variable mmap_key : string -> string -> list string -> list string -> string.
Context {B : Type} (f : state -> B).
Hypothesis Hheap : forall h s, f (set_heap h s) = f s.
Hypothesis Hfiles : forall x s, f (set_files x s) = f s.
Hypothesis Hassign : forall (g : MmapedValue -> MmapedValue) i s,
  (forall v, _params (g v) = _params v) ->
  f (set_values (alter g i (values s)) s) = f s.

Lemma frame_value_at i : keeps f (value_at i).
Proof. intros s. unfold value_at. by destruct (values s !! i). Qed.

Lemma frame_read_value h key : keeps f (read_value h key).
Proof.
  intros s. unfold read_value.
  destruct (heap s !! h) as [d |]; [| done].
  destruct (MmapedDict.closed d); [done |]. by destruct (failing s _).
Qed.

Lemma frame_attach q : keeps f (attach q).
Proof.
  unfold attach. apply keeps_bind; [apply keeps_gets |].
  intros [h |]; [apply keeps_ret |].
  apply keeps_bind; [apply keeps_gets |]. intros d.
  apply keeps_bind; [apply keeps_gets |]. intros p.
  destruct d as [d |]; [| apply keeps_raise].
  apply keeps_bind.
  { intros s. unfold open. destruct (failing s _); [done |]. simpl. apply Hheap. }
  intros h. apply keeps_bind; [apply keeps_modify; intros s; apply Hfiles |].
  intros _. apply keeps_ret.
Qed.

Lemma frame_assign i (g : MmapedValue -> MmapedValue) :
  (forall v, _params (g v) = _params v) -> keeps f (assign i g).
Proof. intros Hg. apply keeps_modify. intros s. by apply Hassign. Qed.

Lemma frame_reset i : keeps f (reset mmap_key i).
Proof.
  unfold reset. apply keeps_bind; [apply frame_value_at |]. intros v.
  apply keeps_bind; [apply frame_attach |]. intros h.
  apply keeps_bind; [by apply frame_assign |]. intros _.
  apply keeps_bind; [by apply frame_assign |]. intros _.
  apply keeps_bind; [apply frame_read_value |].
  intros x. by apply frame_assign.
Qed.

Lemma frame_close_list (l : list nat) s : f (foldr close s l) = f s.
Proof.
  induction l as [| h l IH]; [done |]. simpl. unfold close at 1. by rewrite Hheap.
Qed.

Lemma frame_forked p s : f (forked p s) = f (set_pid p s).
Proof. unfold forked. rewrite Hfiles. apply frame_close_list. Qed.

(** The identity check changes [f] as [pid = p] does, whether it returns or
    raises. *)
Lemma frame_check p s :
  f (check_for_pid_change mmap_key p s).1
  = if bool_decide (pid s <> p) then f (set_pid p s) else f s.
Proof.
  rewrite check_unfold. case_bool_decide; [| done].
  rewrite (keeps_for_each f (reset mmap_key)); [apply frame_forked |].
  apply frame_reset.
Qed.

Lemma frame_write_back g i :
  (forall d s, f (set_disk d s) = f s) -> keeps f (write_back g i).
Proof.
  intros Hdisk. unfold write_back.
  apply keeps_bind; [apply frame_value_at |]. intros v.
  apply keeps_bind; [by apply frame_assign |]. intros _.
  intros s. unfold write_value.
  destruct (heap s !! _file v) as [d |]; [| done].
  destruct (MmapedDict.closed d); [done |].
  destruct (failing s _); [done |]. simpl. apply Hdisk.
Qed.

End Frame.

Section Frames_of_the_methods.
Import MultiProcessValue Shared Common.
Variable mmap_key : string -> string -> list string -> list string -> string.

Lemma bind_after {B A C : Type} (f : state -> B) (m : M A) (k : A -> M C) (b : B) s :
  (forall a, keeps f (k a)) -> f (m s).1 = b -> f (bind m k s).1 = b.
Proof.
  intros Hk Hm. unfold bind. destruct (m s) as [s' [a | e]]; simpl in *; [| done].
  by rewrite Hk.
Qed.

Lemma legacy_compat_inside s :
  disk (legacy_compat s).1 = disk s /\ pid (legacy_compat s).1 = pid s /\
  values (legacy_compat s).1 = values s /\ (legacy_compat s).2 = Ok tt.
Proof.
  unfold legacy_compat.
  by destruct (environ s !! LEGACY), (environ s !! CURRENT).
Qed.

Lemma init_as_rest ps p s :
  init mmap_key ps p s = init_rest mmap_key ps p (legacy_compat s).1.
Proof.
  rewrite init_unfold. destruct (legacy_compat_inside s) as (_ & _ & _ & Hok).
  destruct (legacy_compat s) as [s' r]. simpl in *. by subst r.
Qed.

(** X4. [get()] and the constructor never overwrite or remove what a file
    holds: a float that a file has under a key before the call is there
    after it, whether the call returns or raises, and also when it meets a
    new identity and attaches every instance again. Neither of them calls
    [write_value]. *)
Theorem get_and_constructor_keep_stored_values
    (i : nat) (ps : params) (p : Z) (s : state) (k : string * string) (x : float) :
  disk s !! k = Some x ->
  disk (get mmap_key i p s).1 !! k = Some x /\
  disk (init mmap_key ps p s).1 !! k = Some x.
Proof.
  intros <-. set (f := fun s0 : state => disk s0 !! k).
  assert (keeps f (check_for_pid_change mmap_key p)) as Hcheck.
  { intros s0. rewrite (frame_check mmap_key f) by done. by case_bool_decide. }
  split.
  - change (f (get mmap_key i p s).1 = f s).
    unfold get. apply (keeps_bind f); [done |]. intros _.
    apply keeps_bind; [by apply frame_value_at |]. intros v. apply keeps_ret.
  - change (f (init mmap_key ps p s).1 = f s).
    rewrite init_as_rest.
    assert (f s = f (legacy_compat s).1) as ->.
    { unfold f. by destruct (legacy_compat_inside s) as (-> & _). }
    unfold init_rest. apply (keeps_bind f); [done |]. intros _.
    apply keeps_bind; [by apply frame_attach |]. intros h.
    apply keeps_bind; [by apply frame_read_value |]. intros x0.
    apply keeps_bind; [apply keeps_gets |]. intros n.
    apply keeps_bind; [by apply keeps_modify |]. intros _. apply keeps_ret.
Qed.

Lemma check_sets_pid p s : pid (check_for_pid_change mmap_key p s).1 = p.
Proof.
  rewrite (frame_check mmap_key pid) by done. simpl.
  case_bool_decide as Hp; [done |]. by destruct (decide (pid s = p)).
Qed.

(** X6. After any call, returning or raising, the cached identity is the
    probe of that call; so an identity check with the same probe right
    after changes nothing, also when the attaching of the instances had
    failed half way. *)
Theorem cached_identity_is_last_probe (r : request) (p : Z) (s : state) :
  pid (perform mmap_key r p s).1 = p /\
  check_for_pid_change mmap_key p (perform mmap_key r p s).1
  = ((perform mmap_key r p s).1, Ok tt).
Proof.
  assert (pid (perform mmap_key r p s).1 = p) as Hp.
  { destruct r as [ps | i amount | i value | i]; simpl.
    - apply bind_after; [intros a; apply keeps_ret |].
      rewrite init_as_rest. unfold init_rest.
      apply bind_after; [| apply check_sets_pid]. intros _.
      apply keeps_bind; [by apply frame_attach |]. intros h.
      apply keeps_bind; [by apply frame_read_value |]. intros x.
      apply keeps_bind; [apply keeps_gets |]. intros n.
      apply keeps_bind; [by apply keeps_modify |]. intros _. apply keeps_ret.
    - apply bind_after; [intros a; apply keeps_ret |]. rewrite inc_unfold.
      apply bind_after; [| apply check_sets_pid]. intros _.
      by apply frame_write_back.
    - apply bind_after; [intros a; apply keeps_ret |]. rewrite set_unfold.
      apply bind_after; [| apply check_sets_pid]. intros _.
      by apply frame_write_back.
    - apply bind_after; [intros a; apply keeps_ret |]. unfold get.
      apply bind_after; [| apply check_sets_pid]. intros _.
      apply keeps_bind; [by apply frame_value_at |]. intros v. apply keeps_ret. }
  split; [done |]. by apply check_same_pid.
Qed.

Lemma identities_assign (g : MmapedValue -> MmapedValue) i s :
  (forall v, _params (g v) = _params v) ->
  identities (set_values (alter g i (values s)) s) = identities s.
Proof.
  intros Hg. unfold identities. simpl.
  rewrite (list_fmap_alter _params g id).
  - by apply list_alter_id.
  - apply Forall_forall. intros v _. apply Hg.
Qed.

Lemma identities_check p : keeps identities (check_for_pid_change mmap_key p).
Proof.
  intros s. rewrite (frame_check mmap_key identities);
    [by case_bool_decide | done | done | apply identities_assign].
Qed.

(** X5. The registry keeps the identity of every instance, in the order of
    registration: [inc], [set] and [get] leave the constructor arguments of
    the registered instances as they are; a constructor that returns adds
    its own arguments at the end and returns that position; a constructor
    that raises registers nothing. *)
Theorem registry_keeps_identities (r : request) (p : Z) (s : state) :
  (is_construct r = false ->
   identities (perform mmap_key r p s).1 = identities s) /\
  (forall ps, r = Construct ps ->
     match (perform mmap_key r p s).2 with
     | Ok a =>
       a = Index (length (values s)) /\
       identities (perform mmap_key r p s).1 = identities s ++ [ps]
     | Raise _ => identities (perform mmap_key r p s).1 = identities s
     end).
Proof.
  split.
  - intros Hr. destruct r as [ps | i amount | i value | i]; [done | | |]; simpl.
    + apply (keeps_bind identities); [| intros a; apply keeps_ret].
      rewrite inc_unfold. apply keeps_bind; [apply identities_check |]. intros _.
      apply frame_write_back; [apply identities_assign | done].
    + apply (keeps_bind identities); [| intros a; apply keeps_ret].
      rewrite set_unfold. apply keeps_bind; [apply identities_check |]. intros _.
      apply frame_write_back; [apply identities_assign | done].
    + apply (keeps_bind identities); [| intros a; apply keeps_ret].
      unfold get. apply keeps_bind; [apply identities_check |]. intros _.
      apply keeps_bind; [by apply frame_value_at |]. intros v. apply keeps_ret.
  - intros ps ->. simpl. unfold bind at 1 2 3. rewrite init_as_rest.
    destruct (legacy_compat_inside s) as (_ & _ & Hv & _).
    assert (identities (legacy_compat s).1 = identities s) as Hid
      by (unfold identities; by rewrite Hv).
    rewrite <- Hid, <- Hv. clear Hid Hv. generalize (legacy_compat s).1. intros s0.
    unfold init_rest, bind.
    pose proof (identities_check p s0) as H1.
    destruct (check_for_pid_change mmap_key p s0) as [s1 [[] | e]]; simpl in *;
      [| done].
    pose proof (frame_attach identities
                  ltac:(done) ltac:(done) (file_prefix_of ps) s1) as H2.
    destruct (attach (file_prefix_of ps) s1) as [s2 [h | e]]; simpl in *;
      [| congruence].
    pose proof (frame_read_value identities h (key_of mmap_key ps) s2) as H3.
    destruct (read_value h (key_of mmap_key ps) s2) as [s3 [x | e]]; simpl in *;
      [| congruence].
    unfold identities in *. simpl. rewrite fmap_app. simpl.
    split; [| congruence].
    f_equal. rewrite <- (length_fmap _params (values s3)).
    rewrite <- (length_fmap _params (values s0)). congruence.
Qed.

End Frames_of_the_methods.

(** ** The shared backend: forks, two instances on one key, and the two
    backends side by side *)

Section MmapedValue_compositions.
Import MultiProcessValue Shared Common.
Variable mmap_key : string -> string -> list string -> list string -> string.

Lemma format_db_inj q (p p' : Z) : Py.format_db q p = Py.format_db q p' -> p = p'.
Proof.
  unfold Py.format_db. intros H.
  apply String.app_inj in H. apply String.app_inj in H.
  apply append_inj_r in H. by apply (inj pretty) in H.
Qed.

Lemma format_db_startswith q (p p' : Z) :
  Py.startswith_sep (Py.format_db q p) = Py.startswith_sep (Py.format_db q p').
Proof. unfold Py.format_db. by destruct (Py.format_str q). Qed.

Lemma db_path_inj dir q (p p' : Z) : db_path dir q p = db_path dir q p' -> p = p'.
Proof.
  unfold db_path. intros H.
  destruct (Py.startswith_sep (Py.format_db q p)) eqn:Hs.
  - unfold Py.os_path_join in H.
    rewrite <- (format_db_startswith q p p'), Hs in H. by apply format_db_inj in H.
  - apply os_path_join_inj in H; [by apply format_db_inj in H | done |].
    by rewrite <- (format_db_startswith q p p').
Qed.

Lemma perform_get_same_pid s i p v :
  pid s = p -> values s !! i = Some v ->
  perform mmap_key (DoGet i) p s = (s, Ok (Float (_value v))).
Proof.
  intros Hp Hi. simpl. unfold bind. by rewrite (get_same_pid mmap_key s i p v Hp Hi).
Qed.

(** [get()] on a consistent state, whatever the identity was. *)
Lemma get_ok dir s i v p :
  consistent mmap_key dir s -> environ s !! CURRENT = Some dir -> healthy s ->
  values s !! i = Some v ->
  exists s1 v1,
    perform mmap_key (DoGet i) p s = (s1, Ok (Float (_value v1))) /\
    values s1 !! i = Some v1 /\ _params v1 = _params v /\
    consistent mmap_key dir s1 /\ environ s1 !! CURRENT = Some dir /\
    healthy s1 /\ pid s1 = p /\ disk s1 = disk s /\
    (pid s = p -> v1 = v) /\
    (pid s <> p ->
     _value v1
     = default 0%float
         (disk s !! (db_path dir (file_prefix_of (_params v)) p,
                     key_of mmap_key (_params v)))).
Proof.
  intros Hcons Henv Hok Hi.
  destruct (check_ok mmap_key dir s p Hcons Henv Hok)
    as (s1 & Hcheck & Hcons1 & Hp1 & He1 & Hd1 & Hfail1 & Hw1 & Hl1).
  assert (environ s1 !! CURRENT = Some dir) as Henv1 by (by rewrite He1).
  assert (healthy s1) as Hok1 by (intros op; by rewrite Hfail1).
  rewrite (perform_after_check mmap_key dir _ p s s1 Henv Hcheck He1 Hp1).
  assert (exists v1, values s1 !! i = Some v1 /\ _params v1 = _params v /\
            (pid s = p -> v1 = v) /\
            (pid s <> p ->
             _value v1
             = default 0%float
                 (disk s !! (db_path dir (file_prefix_of (_params v)) p,
                             key_of mmap_key (_params v))))) as (v1 & Hv1 & Hps & Hsame & Hnew).
  { destruct (decide (pid s = p)) as [Hp | Hp].
    - rewrite (check_same_pid mmap_key s p Hp) in Hcheck.
      assert (s1 = s) as -> by congruence. exists v. by split_and!.
    - destruct (check_resync mmap_key dir s p Henv Hok Hp)
        as (s1' & Hcheck' & _ & _ & _ & Hre).
      assert (s1' = s1) as -> by congruence.
      destruct (Hre i v Hi) as (h & Hv1 & _).
      eexists. split; [exact Hv1 |]. by split_and!. }
  exists s1, v1. simpl. unfold bind.
  rewrite (get_same_pid mmap_key s1 i p v1 Hp1 Hv1). by split_and!.
Qed.

(** X7. A value written under identity [p] survives a fork and comes back:
    after [inc] or [set] leaves float [x] in an instance, a [get()] probed
    with another identity [p'] returns what the file of [p'] has under the
    key (0.0 when it has nothing), and a [get()] probed with [p] again
    returns [x], reloaded from the file of [p]. *)
Theorem written_value_survives_fork_and_return
    (dir : string) (s : state) (i : nat) (v : MmapedValue) (p p' : Z)
    (r : request) (x : float) :
  consistent mmap_key dir s -> environ s !! CURRENT = Some dir -> healthy s ->
  pid s = p -> values s !! i = Some v -> p' <> p ->
  (exists amount, r = DoInc i amount /\ x = (_value v + amount)%float) \/
  (exists value, r = DoSet i value /\ x = value) ->
  (perform_all mmap_key [(r, p); (DoGet i, p'); (DoGet i, p)] s).2
  = [Ok NoneValue;
     Ok (Float (default 0%float
                  (disk s !! (db_path dir (file_prefix_of (_params v)) p', _key v))));
     Ok (Float x)].
Proof.
  intros Hcons Henv Hok Hp Hi Hne Hr.
  destruct (write_same_pid_ok mmap_key dir r
              (match r with DoInc _ a => fun y => (y + a)%float | _ => fun _ => x end)
              i p s v Hcons Hok Hp Hi)
    as (s1 & Hperf1 & Hs1 & Hcons1 & Hok1 & Hp1 & Hv1 & _ & Hdisk1).
  { destruct Hr as [(a & -> & ->) | (value & -> & ->)]; [left | right]; eauto. }
  assert ((match r with DoInc _ a => fun y => (y + a)%float | _ => fun _ => x end)
            (_value v) = x) as Hx
    by (by destruct Hr as [(a & -> & ->) | (value & -> & ->)]).
  rewrite Hx in *.
  assert (environ s1 !! CURRENT = Some dir) as Henv1 by (by rewrite Hs1).
  assert (_key v = key_of mmap_key (_params v)) as Hkey
    by (destruct Hcons as [_ Hvals]; by destruct (Hvals i v Hi)).
  destruct (get_ok dir s1 i _ p' Hcons1 Henv1 Hok1 Hv1)
    as (s2 & v2 & Hperf2 & Hv2 & Hps2 & Hcons2 & Henv2 & Hok2 & Hp2 & Hd2 & _ & Hnew2).
  destruct (get_ok dir s2 i _ p Hcons2 Henv2 Hok2 Hv2)
    as (s3 & v3 & Hperf3 & Hv3 & Hps3 & _ & _ & _ & _ & _ & _ & Hnew3).
  rewrite !perform_all_cons, Hperf1. cbn [fst snd]. rewrite Hperf2. cbn [fst snd].
  rewrite Hperf3. cbn [fst snd perform_all].
  rewrite Hnew2 by congruence. rewrite Hnew3 by congruence.
  rewrite Hps2. simpl. rewrite Hd2, <- Hkey. rewrite Hdisk1. simpl.
  assert (disk s1 !! (db_path dir (file_prefix_of (_params v)) p', _key v)
          = disk s !! (db_path dir (file_prefix_of (_params v)) p', _key v)) as ->.
  { rewrite Hs1. simpl. rewrite lookup_insert_ne; [done |].
    intros [= Hpath]. by apply db_path_inj in Hpath. }
  done.
Qed.

(** X8. Two instances on one key do not add up: when [inc(a)] on one and
    then [inc(b)] on the other have returned, the identity unchanged, the
    file holds under the key the float the second had cached plus [b],
    whatever [a] was; each [get()] returns its own instance's float. *)
Theorem second_writer_overwrites_first
    (dir : string) (s : state) (i j : nat) (v v' : MmapedValue) (p : Z)
    (a b : float) :
  consistent mmap_key dir s -> healthy s -> pid s = p ->
  values s !! i = Some v -> values s !! j = Some v' -> i <> j ->
  file_prefix_of (_params v) = file_prefix_of (_params v') -> _key v = _key v' ->
  exists s',
    perform_all mmap_key
      [(DoInc i a, p); (DoInc j b, p); (DoGet i, p); (DoGet j, p)] s
    = (s', [Ok NoneValue; Ok NoneValue;
            Ok (Float (_value v + a)); Ok (Float (_value v' + b))]) /\
    _file v = _file v' /\
    read_value (_file v) (_key v) s' = (s', Ok (_value v' + b)%float).
Proof.
  intros Hcons Hok Hp Hi Hj Hne Hprefix Hkey.
  assert (_file v = _file v') as Hfile.
  { destruct Hcons as [_ Hvals]. destruct (Hvals i v Hi) as [Hf _].
    destruct (Hvals j v' Hj) as [Hf' _]. congruence. }
  destruct (write_sync mmap_key dir s i v p (DoInc i a) (_value v + a)%float
              Hcons Hok Hp Hi)
    as (s1 & Hperf1 & Hcons1 & Hok1 & Hp1 & _ & _ & Hvals1 & Hv1 & _);
    [left; by eexists |].
  assert (values s1 !! j = Some v') as Hj1
    by (by rewrite Hvals1, list_lookup_alter_ne).
  destruct (write_sync mmap_key dir s1 j v' p (DoInc j b) (_value v' + b)%float
              Hcons1 Hok1 Hp1 Hj1)
    as (s2 & Hperf2 & Hcons2 & Hok2 & Hp2 & _ & _ & Hvals2 & Hv2 & Hread & Hget2);
    [left; by eexists |].
  assert (values s2 !! i = Some (with_value (_value v + a)%float v)) as Hi2
    by (by rewrite Hvals2, list_lookup_alter_ne).
  exists s2. split; [| split; [done | by rewrite Hfile, Hkey]].
  rewrite !perform_all_cons, Hperf1. cbn [fst snd]. rewrite Hperf2. cbn [fst snd].
  rewrite (perform_get_same_pid s2 i p _ Hp2 Hi2). cbn [fst snd].
  by rewrite (perform_get_same_pid s2 j p _ Hp2 Hv2).
Qed.

(** X9. One instance, one process: on a consistent state whose identity
    stays the probe's, the shared backend answers every sequence of [inc],
    [set] and [get] on an instance as a [MutexValue] that starts from the
    same float does. *)
Theorem backends_agree_on_one_instance
    (Exemplar : Type) (dir : string) (i : nat) (p : Z) (ms : list method) :
  forall (s : state) (v : MmapedValue),
    consistent mmap_key dir s -> healthy s -> pid s = p ->
    values s !! i = Some v ->
    (perform_all mmap_key ((fun m => (to_request i m, p)) <$> ms) s).2
    = (fun r => Ok (to_answer r))
        <$> returns (to_call <$> ms)
              (MutexValue.Build Exemplar (_value v) None).
Proof.
  induction ms as [| m ms IH]; intros s v Hcons Hok Hp Hi; [done |].
  rewrite !fmap_cons, perform_all_cons. cbn [snd returns]. rewrite fmap_cons.
  destruct m as [amount | value |]; cbn [to_request to_call].
  - destruct (write_sync mmap_key dir s i v p (DoInc i amount) (_value v + amount)%float
                Hcons Hok Hp Hi)
      as (s1 & Hperf & Hcons1 & Hok1 & Hp1 & _ & _ & _ & Hv1 & _);
      [left; by eexists |].
    rewrite Hperf. cbn [fst snd]. f_equal.
    exact (IH s1 _ Hcons1 Hok1 Hp1 Hv1).
  - destruct (write_sync mmap_key dir s i v p (DoSet i value) value Hcons Hok Hp Hi)
      as (s1 & Hperf & Hcons1 & Hok1 & Hp1 & _ & _ & _ & Hv1 & _);
      [right; by eexists |].
    rewrite Hperf. cbn [fst snd]. f_equal.
    exact (IH s1 _ Hcons1 Hok1 Hp1 Hv1).
  - rewrite (perform_get_same_pid s i p v Hp Hi). cbn [fst snd]. f_equal.
    exact (IH s v Hcons Hok Hp Hi).
Qed.

(** X10. One store for each prefix: in a program started on a fresh closure,
    with the directory configured and the file system answering, two
    instances of the same type other than gauge hold the same store object,
    whatever their aggregation modes, and so do two gauges of the same
    mode. *)
Theorem instances_of_one_prefix_share_the_store
    (dir : string) (os : state) (getpid : Z) (calls : list (request * Z))
    (i j : nat) (v v' : MmapedValue) :
  healthy os ->
  environ os !! CURRENT = Some dir \/
  (environ os !! CURRENT = None /\ environ os !! LEGACY = Some dir) ->
  values (perform_all mmap_key calls (MultiProcessValue getpid os)).1 !! i = Some v ->
  values (perform_all mmap_key calls (MultiProcessValue getpid os)).1 !! j = Some v' ->
  (typ (_params v) = typ (_params v') /\ typ (_params v) <> Some "gauge") \/
  (typ (_params v) = Some "gauge" /\ typ (_params v') = Some "gauge" /\
   multiprocess_mode (_params v) = multiprocess_mode (_params v')) ->
  _file v = _file v'.
Proof.
  intros Hok Hcfg Hi Hj Hsame.
  destruct (program_consistent mmap_key dir os getpid calls Hok Hcfg)
    as (s' & [_ Hvals] & Hrel).
  destruct Hrel as (Hv & _); [by intros Hnil; rewrite Hnil in Hi |].
  rewrite Hv in *.
  destruct (Hvals i v Hi) as [Hf _]. destruct (Hvals j v' Hj) as [Hf' _].
  assert (file_prefix_of (_params v) = file_prefix_of (_params v')) as Hq.
  { unfold file_prefix_of. destruct Hsame as [[Ht Hng] | (Hg & Hg' & Hm)].
    - rewrite !bool_decide_eq_false_2; [done | congruence | done].
    - rewrite !bool_decide_eq_true_2 by done. by rewrite Hm. }
  congruence.
Qed.

(** X11. Once the current name is in the environment, no call writes to the
    environment or gives a warning, whatever the legacy name holds: after
    any program of calls both are as before. *)
Theorem current_name_set_no_copy_no_warning
    (dir : string) (calls : list (request * Z)) (s : state) :
  environ s !! CURRENT = Some dir ->
  environ (perform_all mmap_key calls s).1 = environ s /\
  warned (perform_all mmap_key calls s).1 = warned s.
Proof.
  intros Henv. pose proof (perform_all_outside mmap_key dir calls s Henv) as Hout.
  by injection Hout as -> ->.
Qed.

End MmapedValue_compositions.

(** ** More on the two backends *)

Section MutexValue_independence.
Import MutexValue Replay.
Context {Exemplar : Type}.

Lemma merges_Forall {A : Type} (P : A -> Prop) (progs : list (list A)) (order : list A) :
  Forall (Forall P) progs -> merges progs order -> Forall P order.
Proof.
  intros Hall Hm. induction Hm as [progs _ | progs i c rest order Hi _ IH]; [done |].
  pose proof (Forall_lookup_1 _ _ _ _ Hall Hi) as Hc.
  inversion_clear Hc as [| ? ? Hhead Hrest]. constructor; [done |].
  apply IH. by apply Forall_insert.
Qed.

Lemma exec_keeps_exemplar (calls : list (call Exemplar)) (self : t Exemplar) :
  Forall (fun c => forall e, c <> SetExemplar _ e) calls ->
  get_exemplar _ (exec _ calls self) = get_exemplar _ self.
Proof.
  revert self. induction calls as [| c calls IH]; intros self Hall; [done |].
  inversion_clear Hall as [| ? ? Hc Hrest]. simpl.
  change (get_exemplar _ (exec _ calls (apply _ c self)) = get_exemplar _ self).
  rewrite IH by done. destruct c; try done. by destruct (Hc exemplar).
Qed.

Lemma exec_keeps_value (calls : list (call Exemplar)) (self : t Exemplar) :
  Forall (fun c => (forall a, c <> Inc a) /\ (forall x, c <> Set_ x)) calls ->
  get _ (exec _ calls self) = get _ self.
Proof.
  revert self. induction calls as [| c calls IH]; intros self Hall; [done |].
  inversion_clear Hall as [| ? ? [Hinc Hset] Hrest]. simpl.
  change (get _ (exec _ calls (apply _ c self)) = get _ self).
  rewrite IH by done. destruct c; try done.
  - by destruct (Hinc amount).
  - by destruct (Hset value).
Qed.

(** X12. The float and the exemplar of a [MutexValue] do not disturb each
    other, also between threads: once every call has returned, the exemplar
    is the one the instance started with if no thread called
    [set_exemplar], and the float is the one it started with if no thread
    called [inc] or [set]. *)
Theorem MutexValue_float_and_exemplar_independent
    (self : t Exemplar) (progs : list (list (call Exemplar))) (sched : list nat) :
  quiescent _ (run _ sched (spawn _ self progs)) = true ->
  (Forall (Forall (fun c => forall e, c <> SetExemplar _ e)) progs ->
   get_exemplar _ (obj _ (run _ sched (spawn _ self progs))) = get_exemplar _ self) /\
  (Forall (Forall (fun c => (forall a, c <> Inc a) /\ (forall x, c <> Set_ x))) progs ->
   get _ (obj _ (run _ sched (spawn _ self progs))) = get _ self).
Proof.
  intros Hq. destruct (run_linearizable self progs sched Hq) as (order & Hm & ->).
  split; intros Hall.
  - apply exec_keeps_exemplar. by eapply merges_Forall.
  - apply exec_keeps_value. by eapply merges_Forall.
Qed.

End MutexValue_independence.

Section MmapedValue_unconfigured.
Import MultiProcessValue Shared Common.
Variable mmap_key : string -> string -> list string -> list string -> string.

Lemma checked_fresh p getpid os :
  files (checked p (MultiProcessValue getpid os)) = ∅ /\
  heap (checked p (MultiProcessValue getpid os)) = heap os /\
  disk (checked p (MultiProcessValue getpid os)) = disk os /\
  values (checked p (MultiProcessValue getpid os)) = [] /\
  environ (checked p (MultiProcessValue getpid os)) = environ os.
Proof.
  unfold checked. case_bool_decide; [| done].
  unfold forked, close_all. simpl. by rewrite map_to_list_empty.
Qed.

(** X13. The factory used in a process that has the directory under neither
    name: the first constructor raises [TypeError] (it joins [None] with the
    file name); no store is opened, no file is written and no instance is
    registered. *)
Theorem constructor_without_directory_raises
    (os : state) (getpid p : Z) (ps : params) :
  environ os !! CURRENT = None -> environ os !! LEGACY = None ->
  (init mmap_key ps p (MultiProcessValue getpid os)).2 = Raise TypeError /\
  values (init mmap_key ps p (MultiProcessValue getpid os)).1 = [] /\
  heap (init mmap_key ps p (MultiProcessValue getpid os)).1 = heap os /\
  disk (init mmap_key ps p (MultiProcessValue getpid os)).1 = disk os /\
  get_value_class os getpid = MutexValueClass.
Proof.
  intros Hnew Hold.
  assert (init mmap_key ps p (MultiProcessValue getpid os)
          = (checked p (MultiProcessValue getpid os), Raise TypeError)) as ->.
  { rewrite init_unfold. unfold legacy_compat. simpl. rewrite Hold.
    unfold init_rest, bind. rewrite (check_no_values mmap_key) by done.
    destruct (checked_fresh p getpid os) as (Hf & _ & _ & _ & He).
    unfold attach, bind, gets. rewrite Hf, lookup_empty, He, Hnew. done. }
  destruct (checked_fresh p getpid os) as (_ & Hh & Hd & Hv & _).
  split_and!; try done.
  unfold get_value_class. rewrite Hnew, Hold.
  by rewrite !bool_decide_eq_false_2 by (by intros [? ?]).
Qed.

End MmapedValue_unconfigured.

(** ** The further properties on examples *)

Section More_instances.
Import MultiProcessValue Shared Common Examples MoreExamples.

Lemma two_counters_consistent : consistent example_key "/tmp/prom" two_counters.
Proof.
  apply perform_all_consistent; [apply fresh_consistent | done | done].
Qed.

Lemma two_counters_healthy : healthy two_counters.
Proof. intros op. vm_compute. reflexivity. Qed.

(** The two threads of [two_threads] under the schedule [interleaved]: the
    calls took effect in some order that keeps each thread's own, and the
    values returned are those of that order. *)
Lemma MutexValue_calls_linearizable_witness :
  MutexValue.quiescent unit
    (MutexValue.run unit interleaved
       (MutexValue.spawn unit (MutexValue.Build unit 0 None) two_threads)) = true /\
  exists order : list (nat * MutexValue.call unit),
    (forall i p, two_threads !! i = Some p -> Replay.of_thread i order = p) /\
    MutexValue.obj unit
      (MutexValue.run unit interleaved
         (MutexValue.spawn unit (MutexValue.Build unit 0 None) two_threads))
    = MutexValue.exec unit (order.*2) (MutexValue.Build unit 0 None) /\
    forall i th,
      MutexValue.threads unit
        (MutexValue.run unit interleaved
           (MutexValue.spawn unit (MutexValue.Build unit 0 None) two_threads)) !! i
      = Some th ->
      MutexValue.returned unit th
      = Replay.of_thread i (Replay.replay order (MutexValue.Build unit 0 None)).
Proof.
  split; [vm_compute; reflexivity |].
  destruct (MutexValue_calls_linearizable (Exemplar := unit)
              (MutexValue.Build unit 0 None) two_threads interleaved)
    as (order & Hprogs & _ & Hobj & Hret); [vm_compute; reflexivity |].
  exists order. split; [exact Hprogs |]. split; [exact Hobj | exact Hret].
Defined.

(** Two readers, one after the other: the float and the exemplar are those
    the instance started with. *)
Lemma MutexValue_float_and_exemplar_independent_witness :
  MutexValue.quiescent unit
    (MutexValue.run unit one_after_the_other
       (MutexValue.spawn unit (MutexValue.Build unit 3 (Some tt)) two_readers)) = true /\
  MutexValue.get_exemplar unit
    (MutexValue.obj unit
       (MutexValue.run unit one_after_the_other
          (MutexValue.spawn unit (MutexValue.Build unit 3 (Some tt)) two_readers)))
  = Some tt /\
  MutexValue.get unit
    (MutexValue.obj unit
       (MutexValue.run unit one_after_the_other
          (MutexValue.spawn unit (MutexValue.Build unit 3 (Some tt)) two_readers)))
  = 3%float.
Proof.
  split; [vm_compute; reflexivity |].
  destruct (MutexValue_float_and_exemplar_independent (Exemplar := unit)
              (MutexValue.Build unit 3 (Some tt)) two_readers one_after_the_other)
    as [Hex Hval]; [vm_compute; reflexivity |].
  split.
  - apply Hex. repeat constructor; intros e; discriminate.
  - apply Hval. repeat constructor; intros a; discriminate.
Defined.

(** The counter of [one_counter], incremented under identity 100, read under
    identity 101 (whose file is new) and read again under 100. *)
Lemma written_value_survives_fork_and_return_witness :
  consistent example_key "/tmp/prom" one_counter /\
  environ one_counter !! CURRENT = Some "/tmp/prom" /\
  healthy one_counter /\
  values one_counter !! 0%nat
  = Some (Instance_ counter_params 0 (key_of example_key counter_params) 0) /\
  (perform_all example_key [(DoInc 0 1, 100); (DoGet 0, 101); (DoGet 0, 100)]
     one_counter).2
  = [Ok NoneValue; Ok (Float 0); Ok (Float (0 + 1))].
Proof.
  split; [apply one_counter_consistent |]. split; [reflexivity |].
  split; [apply one_counter_healthy |]. split; [vm_compute; reflexivity |].
  exact (written_value_survives_fork_and_return example_key "/tmp/prom" one_counter 0
           (Instance_ counter_params 0 (key_of example_key counter_params) 0)
           100 101 (DoInc 0 1) (0 + 1)%float
           one_counter_consistent eq_refl one_counter_healthy eq_refl eq_refl
           ltac:(discriminate)
           (or_introl (ex_intro _ 1%float (conj eq_refl eq_refl)))).
Defined.

(** The two instances of [two_counters]: the first adds 1.0, the second
    2.0; each reads its own cache and the store has 2.0. *)
Lemma second_writer_overwrites_first_witness :
  consistent example_key "/tmp/prom" two_counters /\
  healthy two_counters /\
  values two_counters !! 0%nat
  = Some (Instance_ counter_params 0 (key_of example_key counter_params) 0) /\
  values two_counters !! 1%nat
  = Some (Instance_ counter_params 0 (key_of example_key counter_params) 0) /\
  exists s',
    perform_all example_key
      [(DoInc 0 1, 100); (DoInc 1 2, 100); (DoGet 0, 100); (DoGet 1, 100)] two_counters
    = (s', [Ok NoneValue; Ok NoneValue; Ok (Float (0 + 1)); Ok (Float (0 + 2))]) /\
    read_value 0 (key_of example_key counter_params) s' = (s', Ok (0 + 2)%float).
Proof.
  split; [apply two_counters_consistent |]. split; [apply two_counters_healthy |].
  split; [vm_compute; reflexivity |]. split; [vm_compute; reflexivity |].
  destruct (second_writer_overwrites_first example_key "/tmp/prom" two_counters 0 1
              (Instance_ counter_params 0 (key_of example_key counter_params) 0)
              (Instance_ counter_params 0 (key_of example_key counter_params) 0)
              100 1%float 2%float
              two_counters_consistent two_counters_healthy eq_refl eq_refl eq_refl
              ltac:(discriminate) eq_refl eq_refl)
    as (s' & Hrun & _ & Hread).
  exists s'. split; [exact Hrun | exact Hread].
Defined.

(** The same five calls on the counter of [one_counter] and on a
    [MutexValue] that starts at the same float. *)
Lemma backends_agree_on_one_instance_witness :
  consistent example_key "/tmp/prom" one_counter /\
  healthy one_counter /\
  values one_counter !! 0%nat
  = Some (Instance_ counter_params 0 (key_of example_key counter_params) 0) /\
  (perform_all example_key
     ((fun m => (to_request 0 m, 100)) <$> [MInc 1; MSet 5; MGet; MInc 2; MGet])
     one_counter).2
  = (fun r => Ok (to_answer r))
      <$> returns (to_call <$> [MInc 1; MSet 5; MGet; MInc 2; MGet])
            (MutexValue.Build unit 0 None).
Proof.
  split; [apply one_counter_consistent |]. split; [apply one_counter_healthy |].
  split; [vm_compute; reflexivity |].
  exact (backends_agree_on_one_instance example_key unit "/tmp/prom" 0 100
           [MInc 1; MSet 5; MGet; MInc 2; MGet] one_counter
           (Instance_ counter_params 0 (key_of example_key counter_params) 0)
           one_counter_consistent one_counter_healthy eq_refl eq_refl).
Defined.

(** Two counters of different metrics with a gauge constructed between
    them: the counters are on the same store. *)
Lemma instances_of_one_prefix_share_the_store_witness :
  healthy example_os /\
  environ example_os !! CURRENT = Some "/tmp/prom" /\
  values (perform_all example_key
            [(Construct counter_params, 100);
             (Construct (gauge_params "max"), 100);
             (Construct errors_params, 100)]
            (MultiProcessValue 100 example_os)).1 !! 0%nat
  = Some (Instance_ counter_params 0 (key_of example_key counter_params) 0) /\
  values (perform_all example_key
            [(Construct counter_params, 100);
             (Construct (gauge_params "max"), 100);
             (Construct errors_params, 100)]
            (MultiProcessValue 100 example_os)).1 !! 2%nat
  = Some (Instance_ errors_params 0 (key_of example_key errors_params) 0) /\
  _file (Instance_ counter_params 0 (key_of example_key counter_params) 0)
  = _file (Instance_ errors_params 0 (key_of example_key errors_params) 0).
Proof.
  split; [done |]. split; [reflexivity |].
  split; [vm_compute; reflexivity |]. split; [vm_compute; reflexivity |].
  apply (instances_of_one_prefix_share_the_store example_key "/tmp/prom" example_os 100
           [(Construct counter_params, 100);
            (Construct (gauge_params "max"), 100);
            (Construct errors_params, 100)] 0 2
           _ _ (fun _ => eq_refl) (or_introl eq_refl)).
  - vm_compute; reflexivity.
  - vm_compute; reflexivity.
  - left. split; [reflexivity | discriminate].
Defined.

(** A counter constructed and incremented with the directory under the
    current name: the environment and the warnings are as before. *)
Lemma current_name_set_no_copy_no_warning_witness :
  environ (MultiProcessValue 100 example_os) !! CURRENT = Some "/tmp/prom" /\
  environ (perform_all example_key
             [(Construct counter_params, 100); (DoInc 0 1, 100)]
             (MultiProcessValue 100 example_os)).1
  = environ (MultiProcessValue 100 example_os) /\
  warned (perform_all example_key
            [(Construct counter_params, 100); (DoInc 0 1, 100)]
            (MultiProcessValue 100 example_os)).1
  = warned (MultiProcessValue 100 example_os).
Proof.
  split; [reflexivity |].
  exact (current_name_set_no_copy_no_warning example_key "/tmp/prom"
           [(Construct counter_params, 100); (DoInc 0 1, 100)]
           (MultiProcessValue 100 example_os) eq_refl).
Defined.

(** A counter constructed in [unconfigured_os]. *)
Lemma constructor_without_directory_raises_witness :
  environ unconfigured_os !! CURRENT = None /\
  environ unconfigured_os !! LEGACY = None /\
  (init example_key counter_params 100 (MultiProcessValue 100 unconfigured_os)).2
  = Raise TypeError /\
  values (init example_key counter_params 100
            (MultiProcessValue 100 unconfigured_os)).1 = [] /\
  get_value_class unconfigured_os 100 = MutexValueClass.
Proof.
  split; [reflexivity |]. split; [reflexivity |].
  destruct (constructor_without_directory_raises example_key unconfigured_os 100 100
              counter_params eq_refl eq_refl)
    as (Hr & Hv & _ & _ & Hc).
  split; [exact Hr |]. split; [exact Hv | exact Hc].
Defined.

(** Two threads, the first adding 1.0 and -2.0 and the second 4.0; the
    second waits for the lock while the first is in its first call. After
    three steps the calls have not all returned, and they can; after the
    schedule [incs_schedule] they have, and [get()] is 3.0. *)
Lemma MutexValue_get_after_incs_witness :
  MutexValue.quiescent unit
    (MutexValue.run unit [0; 1; 0]%nat
       (MutexValue.spawn unit (MutexValue.init unit (Some "counter") "c" "c" [] [])
          ((fmap MutexValue.Inc : list float -> list (MutexValue.call unit))
             <$> up_and_down))) = false /\
  (exists more : list nat,
     MutexValue.quiescent unit
       (MutexValue.run unit ([0; 1; 0]%nat ++ more)
          (MutexValue.spawn unit (MutexValue.init unit (Some "counter") "c" "c" [] [])
             ((fmap MutexValue.Inc : list float -> list (MutexValue.call unit))
                <$> up_and_down))) = true) /\
  MutexValue.quiescent unit
    (MutexValue.run unit incs_schedule
       (MutexValue.spawn unit (MutexValue.init unit (Some "counter") "c" "c" [] [])
          ((fmap MutexValue.Inc : list float -> list (MutexValue.call unit))
             <$> up_and_down))) = true /\
  MutexValue.get unit (MutexValue.obj unit
    (MutexValue.run unit incs_schedule
       (MutexValue.spawn unit (MutexValue.init unit (Some "counter") "c" "c" [] [])
          ((fmap MutexValue.Inc : list float -> list (MutexValue.call unit))
             <$> up_and_down)))) = 3%float /\
  exists order : list float,
    merges up_and_down order /\
    MutexValue.get unit (MutexValue.obj unit
      (MutexValue.run unit incs_schedule
         (MutexValue.spawn unit (MutexValue.init unit (Some "counter") "c" "c" [] [])
            ((fmap MutexValue.Inc : list float -> list (MutexValue.call unit))
               <$> up_and_down))))
    = fold_left PrimFloat.add order 0%float.
Proof.
  split; [vm_compute; reflexivity |].
  split; [exact (proj1 (MutexValue_get_after_incs (Exemplar := unit)
                          (Some "counter") "c" "c" [] [] up_and_down [0; 1; 0]%nat)) |].
  split; [vm_compute; reflexivity |]. split; [vm_compute; reflexivity |].
  destruct (proj2 (MutexValue_get_after_incs (Exemplar := unit)
                     (Some "counter") "c" "c" [] [] up_and_down incs_schedule))
    as (order & Hm & _ & Hg & _); [vm_compute; reflexivity |].
  exists order. split; assumption.
Defined.

(** The counter of [one_counter] after [inc(1.0)]: the file of identity 100
    has 1.0 under the key, and has it still after a [get()] and after a
    constructor that both meet identity 101. *)
Lemma get_and_constructor_keep_stored_values_witness :
  disk (perform example_key (DoInc 0 1) 100 one_counter).1
    !! ("/tmp/prom/counter_100.db", key_of example_key counter_params)
  = Some (0 + 1)%float /\
  disk (get example_key 0 101 (perform example_key (DoInc 0 1) 100 one_counter).1).1
    !! ("/tmp/prom/counter_100.db", key_of example_key counter_params)
  = Some (0 + 1)%float /\
  disk (init example_key errors_params 101
          (perform example_key (DoInc 0 1) 100 one_counter).1).1
    !! ("/tmp/prom/counter_100.db", key_of example_key counter_params)
  = Some (0 + 1)%float.
Proof.
  split; [vm_compute; reflexivity |].
  apply (get_and_constructor_keep_stored_values example_key 0 errors_params 101
           (perform example_key (DoInc 0 1) 100 one_counter).1
           ("/tmp/prom/counter_100.db", key_of example_key counter_params)
           (0 + 1)%float).
  vm_compute; reflexivity.
Defined.

End More_instances.
